(** * Mixfix syntax with binding: a shallow embedding of [syntax.py]

    The development follows the layout of the source file:
    the canonical-reduction check of [Parser.parses], the cursor-position
    order, the mixfix decorator ([to_str], [__eq__], [fresh], [subst],
    [simple_names], [fvs]), the name-binding classes [Name], [V] and [F],
    and the parser front end ([parses], [parse]). *)

From Stdlib Require Import Ascii String List Bool Arith Lia.
From Stdlib Require Import Numbers.DecimalString.
From stdpp Require Import base decidable option list strings gmap.

Local Open Scope string_scope.
Local Open Scope list_scope.

(** ** Names *)

(** [Name(x, n)]: the pretty name [x] and the disambiguator [n]
    ([None] or a natural number). *)
Record Name : Type := MkName { name_x : string; name_n : option nat }.

#[global] Instance Name_eq_dec : EqDecision Name.
Proof. solve_decision. Defined.

#[global] Instance Name_countable : Countable Name.
Proof.
  refine (inj_countable' (fun a => (name_x a, name_n a))
                         (fun p => MkName p.1 p.2) _).
  intros []; reflexivity.
Defined.

(** The decimal numeral printed by an f-string for a natural number. *)
Definition str_of_nat (k : nat) : string :=
  NilZero.string_of_uint (Nat.to_uint k).

Module NameOps.

(** [Name.__str__]. *)
Definition str (a : Name) : string :=
  match name_n a with
  | None => name_x a
  | Some k => name_x a ++ "@" ++ str_of_nat k
  end.

(** [Name.with_n]. *)
Definition with_n (a : Name) (k : option nat) : Name := MkName (name_x a) k.

(** [Name.fresh]: [next(global_nats)] read from the counter [g], which is
    returned advanced by one. *)
Definition fresh (a : Name) (g : nat) : Name * nat :=
  (MkName (name_x a) (Some g), S g).

End NameOps.

(** ** Mixfix declarations *)

(** [Str(s, **kwargs)]. *)
Record Str : Type := MkStr { str_s : string; str_kvs : list (string * string) }.

Fixpoint assoc {A} (k : string) (l : list (string * A)) : option A :=
  match l with
  | [] => None
  | (k', v) :: l' => if String.eqb k k' then Some v else assoc k l'
  end.

(** [Str.in_mode]. *)
Definition in_mode (v : Str) (mode : option string) : string :=
  match mode with
  | None => str_s v
  | Some m =>
      match assoc m (str_kvs v) with
      | None => str_s v
      | Some t => t
      end
  end.

(** The annotation of a declared field: a [Str] literal or anything else
    ([any], [F]), which makes it a constructor argument. *)
Inductive annotation : Type :=
| AStr (v : Str)
| AField.

Definition is_field (a : annotation) : bool :=
  match a with AStr _ => false | AField => true end.

(** A class decorated by [@mixfix]: its name, its [__annotations__] in
    declaration order and its optional [bracket] attribute. *)
Record mixclass : Type := MkClass {
  cname : string;
  annotations : list (string * annotation);
  bracket_attr : option (option string -> string -> string)
}.

(** [fields = tuple(k for k, v in annotations.items() if type(v) is not Str)]. *)
Definition fields (c : mixclass) : list string :=
  map fst (filter (fun kv => is_field (snd kv)) (annotations c)).

Definition parens (s : string) : string := "(" ++ s ++ ")".

(** [c.bracket], defaulting to [lambda mode, s: parens(s)]. *)
Definition bracket (c : mixclass) (mode : option string) (s : string) : string :=
  match bracket_attr c with
  | Some b => b mode s
  | None => parens s
  end.

(** ** Terms *)

#[warnings="-register-all"]
Inductive term : Type :=
| V (x : Name)
| F (x : Name) (e : term)
| Mix (c : mixclass) (args : list term).

(** An instance of a mixfix class holds one attribute per field
    ([assert len(fields) == len(args)] in [__init__]). *)
Fixpoint wf (t : term) : Prop :=
  match t with
  | V _ => True
  | F _ e => wf e
  | Mix c args =>
      annotations c <> [] /\ length args = length (fields c)
      /\ (fix all (l : list term) : Prop :=
            match l with [] => True | a :: l' => wf a /\ all l' end) args
  end.

(** ** Python exceptions and results *)

Module Py.

(** The exceptions the modelled code can raise.  [ValueError] carries what
    the messages built by [Parser.parse] and [F.transform] are formatted
    from. *)
Inductive value_error : Type :=
| NoParseFor (s : string)
| AmbiguousParseFor (s : string) (parses : list term)
| BadBinder.

Inductive exn : Type :=
| IndexError
| AttributeError
| AssertionError
| ValueError (e : value_error)
| UnexpectedInput.

Definition result (A : Type) : Type := exn + A.

Definition ret {A} (a : A) : result A := inr a.
Definition raise {A} (e : exn) : result A := inl e.
Definition bind {A B} (m : result A) (k : A -> result B) : result B :=
  match m with
  | inl e => inl e
  | inr a => k a
  end.

Definition returns {A} (m : result A) : bool :=
  match m with inr _ => true | inl _ => false end.

End Py.

Notation "x <-! m ; k" := (Py.bind m (fun x => k))
  (at level 100, m at next level, right associativity).

(** ** Characters and strings *)

Section Chars.

Definition lparen : ascii := "("%char.
Definition rparen : ascii := ")"%char.

(** [c in '()'] for a one-character string [c]. *)
Definition in_parens (c : ascii) : bool :=
  Ascii.eqb c lparen || Ascii.eqb c rparen.

(** Membership of a character in [set(s)]. *)
Fixpoint mem_char (c : ascii) (s : string) : bool :=
  match s with
  | EmptyString => false
  | String d s' => Ascii.eqb c d || mem_char c s'
  end.

(** [all(p(c) for c in s)]. *)
Fixpoint all_chars (p : ascii -> bool) (s : string) : bool :=
  match s with
  | EmptyString => true
  | String c s' => p c && all_chars p s'
  end.

(** The whitespace characters [str.split()] splits on, within ASCII. *)
Definition is_space (c : ascii) : bool :=
  let n := nat_of_ascii c in
  Nat.eqb n 32 || (Nat.leb 9 n && Nat.leb n 13)
  || (Nat.leb 28 n && Nat.leb n 31).

(** A string is the sequence of the bytes of its text.  A character of
    Python is one byte in ASCII text only: there the sets of characters, the
    indices and the whitespace of the code are those of these definitions;
    a property that reads a string character by character says so where it
    holds of ASCII text only. *)
Definition is_ascii (c : ascii) : bool := Nat.ltb (nat_of_ascii c) 128.

Definition ascii_text (s : string) : bool := all_chars is_ascii s.

(** [remove_whitespace = lambda s: ''.join(s.split())]. *)
Fixpoint remove_whitespace (s : string) : string :=
  match s with
  | EmptyString => EmptyString
  | String c s' =>
      if is_space c then remove_whitespace s'
      else String c (remove_whitespace s')
  end.

End Chars.

(** ** The canonical-reduction check of [Parser.parses] *)

Module Reduce.

(** The [while True] loop of [reducible_to].  The indices [i] and [j] only
    ever advance by one, so the loop state is the pair of suffixes
    [s[i:]] and [t[j:]].  [s[i]] with [i = len(s)] raises [IndexError]. *)
Fixpoint walk (s t : string) {struct s} : Py.result bool :=
  match t with
  | EmptyString => Py.ret true
  | String tc t' =>
      match s with
      | EmptyString => Py.raise Py.IndexError
      | String sc s' =>
          if Ascii.eqb sc tc then walk s' t'
          else if in_parens sc then walk s' t
          else Py.ret false
      end
  end.

(** [set_s.symmetric_difference(set_t) - set('()') != set()]. *)
Definition symdiff_nonparen (s t : string) : bool :=
  negb (all_chars (fun c => mem_char c t || in_parens c) s
        && all_chars (fun c => mem_char c s || in_parens c) t).

(** [(set_s - set_t) - set('()') != set()]. *)
Definition diff_nonparen (s t : string) : bool :=
  negb (all_chars (fun c => mem_char c t || in_parens c) s).

Definition reducible_to (s t : string) : Py.result bool :=
  if String.eqb s t then Py.ret true
  else if symdiff_nonparen s t then Py.ret false
  else if diff_nonparen s t then Py.ret false
  else walk s t.

(** What the check is documented to decide: [t] is [s] with some
    parenthesis characters removed. *)
Inductive drops_parens : string -> string -> Prop :=
| dp_nil : drops_parens EmptyString EmptyString
| dp_keep c s t : drops_parens s t -> drops_parens (String c s) (String c t)
| dp_drop c s t : in_parens c = true -> drops_parens s t ->
                  drops_parens (String c s) t.

End Reduce.

(** ** The order on cursor positions *)

Module Poset.

(** Modelled from the spec: the class [Poset] imported from [poset], which
    is not part of the source files.  Cursor positions are strings; the
    order records declared bottom elements, declared top elements and
    declared inequalities [lo <= hi], and [le] is the reflexive and
    transitive closure of what was declared. *)
Record t : Type := MkPoset {
  bots : list string;
  tops : list string;
  edges : list (string * string)
}.

Definition empty : t := MkPoset [] [] [].

Definition add_bot (b : string) (p : t) : t :=
  MkPoset (b :: bots p) (tops p) (edges p).

Definition add_top (b : string) (p : t) : t :=
  MkPoset (bots p) (b :: tops p) (edges p).

Definition add (lo hi : string) (p : t) : t :=
  MkPoset (bots p) (tops p) ((lo, hi) :: edges p).

Definition mem (a : string) (l : list string) : bool :=
  existsb (String.eqb a) l.

(** One round of closure: the positions declared above a reached one. *)
Definition step (p : t) (reached : list string) : list string :=
  reached
  ++ map snd (filter (fun e => mem (fst e) reached) (edges p)).

Fixpoint closure (p : t) (rounds : nat) (reached : list string) : list string :=
  match rounds with
  | O => reached
  | S k => closure p k (step p reached)
  end.

(** Every position is below a top element and a bottom element is below
    every position. *)
Definition le (p : t) (a b : string) : bool :=
  let reached := closure p (length (edges p)) (a :: tops p) in
  mem b reached || existsb (fun r => mem r (bots p)) reached.

End Poset.

(** [global_prec_order = Poset().add_bot('bot').add_top('top')]. *)
Definition initial_prec_order : Poset.t :=
  Poset.add_top "top" (Poset.add_bot "bot" Poset.empty).

(** [prec_ge(p, q)]: [global_prec_order.add(to_prec(q), to_prec(p))]. *)
Definition prec_ge (p q : string) (o : Poset.t) : Poset.t := Poset.add q p o.

(** [prec_ges(pqs)]. *)
Definition prec_ges (pqs : list (string * string)) (o : Poset.t) : Poset.t :=
  fold_left (fun o pq => prec_ge (fst pq) (snd pq) o) pqs o.

Definition prec_bot (p : string) (o : Poset.t) : Poset.t := Poset.add_bot p o.
Definition prec_top (p : string) (o : Poset.t) : Poset.t := Poset.add_top p o.

(** ** The precedence-directed printer ([to_str]) *)

Module Printer.

(** [make_prec] inside [to_str]. *)
Definition make_prec (name field_name : string) : string :=
  if String.eqb field_name name then name else name ++ "." ++ field_name.

(** An entry of the list [precs]: the cursor position used to recur, the
    field name or [None], and the annotation. *)
Definition prec_entry : Type := string * option string * option annotation.

(** An entry of the generator [items]: [(l, (k, v), r)]. *)
Definition item : Type := string * (option string * option annotation) * string.

(** [right_prec_inner = make_prec(tuple(annotations.items())[-1][0])]. *)
Definition right_prec_inner (c : mixclass) : string :=
  make_prec (cname c) (List.last (map fst (annotations c)) (cname c)).

(** [bracketing = not (prec_order.le(left_prec, left_prec_inner)
                       and prec_order.le(right_prec, right_prec_inner))]. *)
Definition bracketing (o : Poset.t) (c : mixclass) (left_prec right_prec : string)
  : bool :=
  negb (Poset.le o left_prec (cname c)
        && Poset.le o right_prec (right_prec_inner c)).

(** [precs[-1] = ('bot', precs[-1][1], precs[-1][2])]. *)
Fixpoint reset_last (l : list prec_entry) : list prec_entry :=
  match l with
  | [] => []
  | [(_, k, v)] => [("bot", k, v)]
  | e :: l' => e :: reset_last l'
  end.

Definition precs (c : mixclass) (b : bool) : list prec_entry :=
  let name := cname c in
  let l :=
    ((if b then "bot" else name), None, None)
      :: map (fun kv : string * annotation =>
                let (k, v) := kv in
                (make_prec name k,
                 (if is_field v then Some k else None),
                 Some v))
             (annotations c) in
  if b then reset_last l else l.

(** [zip(precs, precs[1:])], rearranged as [(l, (k, v), r)]. *)
Fixpoint pair_up (l : list prec_entry) : list item :=
  match l with
  | (lp, _, _) :: (((rp, k, v) :: _) as l') => (lp, (k, v), rp) :: pair_up l'
  | _ => []
  end.

Definition items (c : mixclass) (b : bool) : list item := pair_up (precs c b).

(** The literal entries in front of the next field entry: their spellings
    concatenated, then the bounds of that field and the entries after it. *)
Fixpoint next_field (mode : option string) (its : list item)
  : string * option (string * string * list item) :=
  match its with
  | [] => ("", None)
  | (l, (Some _, _), r) :: rest => ("", Some (l, r, rest))
  | (_, (None, v), _) :: rest =>
      let lit := match v with Some (AStr w) => in_mode w mode | _ => "" end in
      let (lits, nxt) := next_field mode rest in
      ((lit ++ lits)%string, nxt)
  end.

(** The loop [for (left_prec_inner, (k, v), right_prec_inner) in items].
    Field entries come in the order of [fields], so [getattr(self, k)] is
    the next constructor argument. *)
Fixpoint render_items (rec : string -> string -> term -> string)
    (mode : option string) (args : list term) (its : list item)
    {struct args} : string :=
  match next_field mode its with
  | (lits, None) => lits
  | (lits, Some (l, r, rest)) =>
      match args with
      | [] => lits
      | a :: args' => (lits ++ rec l r a ++ render_items rec mode args' rest)%string
      end
  end.

(** [V.str], [F.str] and the [to_str] generated by [mixfix]. *)
Fixpoint to_str (o : Poset.t) (mode : option string)
    (left_prec right_prec : string) (t : term) {struct t} : string :=
  match t with
  | V x => NameOps.str x
  | F x e =>
      let dot := match mode with None => "." | Some _ => ". " end in
      (NameOps.str x ++ dot ++ to_str o mode "bot" right_prec e)%string
  | Mix c args =>
      let b := bracketing o c left_prec right_prec in
      let res := render_items (to_str o mode) mode args (items c b) in
      if b then bracket c mode res else res
  end.

(** [__str__]: [self.str(None)] with the default bounds. *)
Definition str (o : Poset.t) (t : term) : string := to_str o None "bot" "bot" t.

End Printer.

(** ** The example languages declared in the source *)

Module Examples.

Definition field_ (k : string) : string * annotation := (k, AField).
Definition lit (k s : string) (kvs : list (string * string))
  : string * annotation := (k, AStr (MkStr s kvs)).

(** Example 1: simple types. *)
Definition Top : mixclass :=
  MkClass "Top" [lit "s" "1" []] None.
Definition Times : mixclass :=
  MkClass "Times" [field_ "p"; lit "times" "*" [("pretty", " * ")]; field_ "q"] None.
Definition Plus : mixclass :=
  MkClass "Plus" [field_ "p"; lit "plus" "+" [("pretty", " + ")]; field_ "q"] None.
Definition Pow : mixclass :=
  MkClass "Pow" [field_ "p"; lit "to" "->" [("pretty", " -> ")]; field_ "q"] None.

(** The precedence declarations of Example 1, in source order. *)
Definition order1 : Poset.t :=
  prec_ges [("Plus", "Pow"); ("Plus.q", "Pow.p")]
  (prec_ge "Pow" "Pow.to"
  (prec_ges [("Times", "Plus"); ("Times.q", "Plus.p"); ("Times.q", "Plus.q")]
  (prec_ge "Plus" "Plus.plus"
  (prec_ge "Times" "Times.times"
  (prec_top "Top.s"
  (prec_top "Top" initial_prec_order)))))).

(** Example 2: quantifiers. *)
Definition Forall : mixclass :=
  MkClass "Forall" [lit "forall" "forall " [("pretty", "∀ ")]; field_ "xp"] None.
Definition Exists : mixclass :=
  MkClass "Exists" [lit "forall" "exists " [("pretty", "∃ ")]; field_ "xp"] None.
Definition Eq : mixclass :=
  MkClass "Eq" [field_ "m"; lit "eq" "=" [("pretty", " = ")]; field_ "n"] None.

Definition order2 : Poset.t :=
  prec_ge "Times.q" "Exists.xp"
  (prec_ge "Eq.n" "Exists.xp"
  (prec_ges [("Forall.xp", "Exists.xp"); ("Exists.xp", "Forall.xp")] order1)).

(** Example 4: untyped lambda calculus. *)
Definition Lam : mixclass :=
  MkClass "Lam" [lit "lam" "\" [("pretty", "λ")]; field_ "m"] None.
Definition App : mixclass :=
  MkClass "App" [field_ "m"; lit "app" "" [("pretty", " ")]; field_ "n"] None.

Definition order4 : Poset.t :=
  prec_ge "App.n" "Lam.m" (prec_ge "App.n" "App.m" order2).

Definition top : term := Mix Top [].
Definition times (p q : term) : term := Mix Times [p; q].
Definition plus (p q : term) : term := Mix Plus [p; q].
Definition pow (p q : term) : term := Mix Pow [p; q].
Definition eq_ (m n : term) : term := Mix Eq [m; n].
Definition app (m n : term) : term := Mix App [m; n].

Definition pretty : option string := Some "pretty".

End Examples.

(** ** Attribute access on terms *)

Module Attr.

(** The values an attribute [x] or [n] of a term can hold. *)
Inductive pyval : Type :=
| PName (a : Name)
| PStr (s : string)
| PTerm (t : term).

Fixpoint zip_lookup (k : string) (ks : list string) (vs : list term)
  : option term :=
  match ks, vs with
  | k' :: ks', v :: vs' => if String.eqb k k' then Some v else zip_lookup k ks' vs'
  | _, _ => None
  end.

(** [getattr(t, k)] for [k] one of ['x'], ['n']: [V] and [F] instances have
    the attribute [x]; an instance of a mixfix class has its fields as
    instance attributes and every annotation [k] as the class attribute
    [f'{name}.{k}']. *)
Definition getattr (t : term) (k : string) : Py.result pyval :=
  match t with
  | V a | F a _ =>
      if String.eqb k "x" then Py.ret (PName a) else Py.raise Py.AttributeError
  | Mix c args =>
      match zip_lookup k (fields c) args with
      | Some v => Py.ret (PTerm v)
      | None =>
          if existsb (String.eqb k) (map fst (annotations c))
          then Py.ret (PStr (cname c ++ "." ++ k))
          else Py.raise Py.AttributeError
      end
  end.

(** [s == v] for a [str] (or [None], or [int]) [s] that is not equal to
    [v] by its own [__eq__]: the reflected [v.__eq__(s)] is tried.
    [Name.__eq__] and [V.__eq__] read [s.x] and raise; [F.__eq__] and the
    mixfix [__eq__] answer [False] on a type mismatch. *)
Definition reflected_eq (v : pyval) : Py.result bool :=
  match v with
  | PName _ => Py.raise Py.AttributeError
  | PStr _ => Py.ret false
  | PTerm (V _) => Py.raise Py.AttributeError
  | PTerm _ => Py.ret false
  end.

Definition str_eq (s : string) (v : pyval) : Py.result bool :=
  match v with
  | PStr s' => Py.ret (String.eqb s s')
  | _ => reflected_eq v
  end.

(** [Name.__eq__(a, other)]:
    [self.x == other.x and self.n == other.n]. *)
Definition Name_eq (a : Name) (other : pyval) : Py.result bool :=
  match other with
  | PName b => Py.ret (bool_decide (a = b))
  | PStr _ => Py.raise Py.AttributeError
  | PTerm p =>
      ox <-! getattr p "x";
      bx <-! str_eq (name_x a) ox;
      if bx then (on <-! getattr p "n"; reflected_eq on) else Py.ret false
  end.

End Attr.

(** ** The binding-aware operations: [__eq__], [fvs], [fresh], [subst] *)

Module Binding.

(** [__eq__(self, other, renaming)] of [V], [F] and mixfix classes.
    Classes are identified by their names in [type(self) is type(other)]. *)
Fixpoint eq (self other : term) (renaming : gmap Name Name) {struct self}
  : Py.result bool :=
  match self with
  | V x =>
      ox <-! Attr.getattr other "x";
      match renaming !! x with
      | Some y => Attr.Name_eq y ox
      | None => Attr.Name_eq x ox
      end
  | F x e =>
      match other with
      | F y e' => eq e e' (<[x := y]> renaming)
      | _ => Py.ret false
      end
  | Mix c args =>
      match other with
      | Mix c' args' =>
          if String.eqb (cname c) (cname c') then
            (fix all (l l' : list term) {struct l} : Py.result bool :=
               match l with
               | [] => Py.ret true
               | a :: r =>
                   match l' with
                   | [] => Py.raise Py.AttributeError
                   | a' :: r' =>
                       b <-! eq a a' renaming;
                       if b then all r r' else Py.ret false
                   end
               end) args args'
          else Py.ret false
      | _ => Py.ret false
      end
  end.

(** [s == t], with the default [renaming={}]. *)
Definition alpha_eq (s t : term) : Py.result bool := eq s t ∅.

(** [fvs]. *)
Fixpoint fvs (t : term) : gset Name :=
  match t with
  | V x => {[ x ]}
  | F x e => fvs e ∖ {[ x ]}
  | Mix _ args =>
      (fix all (l : list term) : gset Name :=
         match l with
         | [] => ∅
         | a :: r => fvs a ∪ all r
         end) args
  end.

(** Computations that read the counter [global_nats]. *)
Definition counter (A : Type) : Type := nat -> A * nat.

(** [fresh(self, renaming)]; the arguments of a constructor are evaluated
    from left to right. *)
Fixpoint fresh (t : term) (renaming : gmap Name Name) {struct t} : counter term :=
  fun g =>
  match t with
  | V x =>
      match renaming !! x with
      | Some y => (V y, g)
      | None => (V x, g)
      end
  | F x e =>
      let (x', g1) := NameOps.fresh x g in
      let (e', g2) := fresh e (<[x := x']> renaming) g1 in
      (F x' e', g2)
  | Mix c args =>
      let (args', g') :=
        (fix all (l : list term) (g : nat) : list term * nat :=
           match l with
           | [] => ([], g)
           | a :: r =>
               let (a', g1) := fresh a renaming g in
               let (r', g2) := all r g1 in
               (a' :: r', g2)
           end) args g in
      (Mix c args', g')
  end.

(** [subst(self, substitution)]. *)
Fixpoint subst (t : term) (substitution : gmap Name term) {struct t}
  : counter term :=
  fun g =>
  match t with
  | V x =>
      match substitution !! x with
      | Some u => (u, g)
      | None => (V x, g)
      end
  | F x e =>
      let (x', g1) := NameOps.fresh x g in
      let (e', g2) := subst e (<[x := V x']> substitution) g1 in
      (F x' e', g2)
  | Mix c args =>
      let (args', g') :=
        (fix all (l : list term) (g : nat) : list term * nat :=
           match l with
           | [] => ([], g)
           | a :: r =>
               let (a', g1) := subst a substitution g in
               let (r', g2) := all r g1 in
               (a' :: r', g2)
           end) args g in
      (Mix c args', g')
  end.

(** [F('x', lambda x: e)]: [Name(x).fresh()], then the body built on
    [V(self.x)]; the body may allocate binders of its own. *)
Definition binder (x : string) (body : term -> counter term) : counter term :=
  fun g =>
  let (a, g1) := NameOps.fresh (MkName x None) g in
  let (e, g2) := body (V a) g1 in
  (F a e, g2).

End Binding.

(** ** Display-name simplification ([simple_names]) *)

Module Simplify.

Import Binding.

(** [next(self.x.with_n(n) for n in nats() if self.x.with_n(n) not in in_use)],
    started at [n]; a finite set leaves a candidate free within
    [size in_use + 1] steps. *)
Fixpoint first_free (x : Name) (in_use : gset Name) (steps n : nat) : nat :=
  match steps with
  | O => n
  | S k =>
      if decide (NameOps.with_n x (Some n) ∈ in_use)
      then first_free x in_use k (S n)
      else n
  end.

(** The display name chosen for the bound name [x]. *)
Definition pick (x : Name) (in_use : gset Name) : Name :=
  if decide (NameOps.with_n x None ∈ in_use)
  then NameOps.with_n x (Some (first_free x in_use (size in_use) 0))
  else NameOps.with_n x None.

(** [set(v for _, v in renaming.items())]. *)
Definition values (renaming : gmap Name Name) : gset Name :=
  list_to_set (map snd (map_to_list renaming)).

(** [simple_names(self, renaming, in_use)] with [in_use] a set object:
    the second component of the result is the content of that object when
    the call returns ([in_use |= self.fvs()] updates it in place, while
    [in_use | {x}] builds a new set for the body). *)
Fixpoint go (t : term) (renaming : gmap Name Name) (in_use : gset Name)
    {struct t} : term * gset Name :=
  match t with
  | V x =>
      match renaming !! x with
      | Some y => (V y, in_use)
      | None => (V x, in_use)
      end
  | F x e =>
      let in_use1 := in_use ∪ fvs (F x e) in
      let x' := pick x in_use1 in
      let (e', _) := go e (<[x := x']> renaming) (in_use1 ∪ {[ x' ]}) in
      (F x' e', in_use1)
  | Mix c args =>
      let (args', in_use') :=
        (fix all (l : list term) (in_use : gset Name) : list term * gset Name :=
           match l with
           | [] => ([], in_use)
           | a :: r =>
               let (a', u1) := go a renaming in_use in
               let (r', u2) := all r u1 in
               (a' :: r', u2)
           end) args in_use in
      (Mix c args', in_use')
  end.

(** [t.simple_names()]: [renaming={}] and [in_use=None], which allocates
    the set. *)
Definition simple_names (t : term) : term := fst (go t ∅ (values ∅)).

(** The pass as the specification words it: the names reserved at a binder
    are those of its ancestors together with its own free names. *)
Fixpoint go_spec (t : term) (renaming : gmap Name Name) (reserved : gset Name)
    {struct t} : term :=
  match t with
  | V x =>
      match renaming !! x with
      | Some y => V y
      | None => V x
      end
  | F x e =>
      let reserved1 := reserved ∪ fvs (F x e) in
      let x' := pick x reserved1 in
      F x' (go_spec e (<[x := x']> renaming) (reserved1 ∪ {[ x' ]}))
  | Mix c args => Mix c (map (fun a => go_spec a renaming reserved) args)
  end.

Definition simple_names_spec (t : term) : term := go_spec t ∅ ∅.

End Simplify.

(** ** Derivation trees and the transformer *)

#[warnings="-register-all"]
Inductive tree : Type :=
| Tree (data : string) (children : list tree)
| Token (type_ value : string).

Fixpoint tree_eqb (a b : tree) {struct a} : bool :=
  match a, b with
  | Token ty v, Token ty' v' => String.eqb ty ty' && String.eqb v v'
  | Tree d l, Tree d' l' =>
      String.eqb d d'
      && (fix all (l l' : list tree) {struct l} : bool :=
            match l, l' with
            | [], [] => true
            | x :: r, x' :: r' => tree_eqb x x' && all r r'
            | _, _ => false
            end) l l'
  | _, _ => false
  end.

(** A class registered with the parser: [F] or a mixfix class. *)
Inductive ctor : Type :=
| CtorF
| CtorMix (c : mixclass).

Definition ctor_name (c : ctor) : string :=
  match c with CtorF => "F" | CtorMix c => cname c end.

(** A production [(C, [None, "+", None])]. *)
Definition production : Type := ctor * list (option string).

Module Grammar.

Definition is_upper (c : ascii) : bool :=
  let n := nat_of_ascii c in Nat.leb 65 n && Nat.leb n 90.

Definition lower (c : ascii) : ascii :=
  if is_upper c then ascii_of_nat (nat_of_ascii c + 32) else c.

(** ['c' + ''.join('_' + c.lower() if c.isupper() else c for c in s)]. *)
Fixpoint munge (s : string) : string :=
  match s with
  | EmptyString => EmptyString
  | String c s' =>
      if is_upper c then String "_" (String (lower c) (munge s'))
      else String c (munge s')
  end.

Definition classname_to_nt (s : string) : string := String "c" (munge s).

(** The production registered by [mixfix]:
    [(c, [None if type(v) is not Str else v.s for k, v in annotations.items()])]. *)
Definition production_of (c : mixclass) : production :=
  (CtorMix c,
   map (fun kv : string * annotation =>
          match snd kv with AStr v => Some (str_s v) | AField => None end)
       (annotations c)).

(** [global_parser.add_production((F, [None, ".", None]))]. *)
Definition production_F : production := (CtorF, [None; Some "."; None]).

End Grammar.

Module Transformer.

(** [constructors[k] = v] on a dict. *)
Fixpoint dict_set {A} (k : string) (v : A) (d : list (string * A))
  : list (string * A) :=
  match d with
  | [] => [(k, v)]
  | (k', v') :: d' =>
      if String.eqb k k' then (k, v) :: d' else (k', v') :: dict_set k v d'
  end.

(** What [transformer.transform] returns for a tree.  The rules [string]
    and [number] have no callback and a token has none either: such a
    subtree is returned as it is ([Raw]), and a registered class called on
    it stores it in a field, which gives an object that is no term
    ([Holds]). *)
Inductive value : Type :=
| Built (t : term)
| Raw
| Holds.

(** The terms among the arguments of a callback, when all of them are. *)
Fixpoint built_all (args : list value) : option (list term) :=
  match args with
  | [] => Some []
  | Built t :: r =>
      match built_all r with Some l => Some (t :: l) | None => None end
  | _ :: _ => None
  end.

(** [F.transform(args)]: [case [V(x), e]: return F(x, e)], whatever [e] is. *)
Definition F_transform (args : list value) : Py.result value :=
  match args with
  | [Built (V x); Built e] => Py.ret (Built (F x e))
  | [Built (V x); _] => Py.ret Holds
  | _ => Py.raise (Py.ValueError Py.BadBinder)
  end.

(** The constructor call on the argument list: [__init__] asserts
    [len(fields) == len(args)] and stores the arguments. *)
Definition construct (c : mixclass) (args : list value) : Py.result value :=
  if Nat.eqb (length (fields c)) (length args) then
    match built_all args with
    | Some l => Py.ret (Built (Mix c l))
    | None => Py.ret Holds
    end
  else Py.raise Py.AssertionError.

(** The callback installed for a registered class. *)
Definition callback (c : ctor) (args : list value) : Py.result value :=
  match c with
  | CtorF => F_transform args
  | CtorMix c => construct c args
  end.

(** [transformer.transform(tree)], bottom-up: the children first, then the
    callback of the rule, if it has one.  The callback [identifier] builds
    [V(Name(s[0].value))] from the token the engine gives it. *)
Fixpoint transform (constructors : list (string * ctor)) (t : tree)
    {struct t} : Py.result value :=
  match t with
  | Token _ _ => Py.ret Raw
  | Tree data children =>
      if String.eqb data "identifier" then
        match children with
        | Token _ v :: _ => Py.ret (Built (V (MkName v None)))
        | Tree _ _ :: _ => Py.raise Py.AttributeError
        | [] => Py.raise Py.IndexError
        end
      else
        args <-!
          (fix all (l : list tree) : Py.result (list value) :=
             match l with
             | [] => Py.ret []
             | x :: r =>
                 a <-! transform constructors x;
                 r' <-! all r;
                 Py.ret (a :: r')
             end) children;
        match assoc data constructors with
        | None => Py.ret Raw
        | Some c => callback c args
        end
  end.

End Transformer.

(** ** The parser front end ([Parser]) *)

Module Parser.

(** The variables [productions] and [constructors] closed over by the
    class [Parser]; [parser] and [transformer] are rebuilt from them by
    every [add_production]. *)
Record state : Type := MkState {
  productions : list production;
  constructors : list (string * ctor)
}.

Definition initial : state := MkState [] [].

Definition add_production (p : production) (st : state) : state :=
  MkState (productions st ++ [p])
          (Transformer.dict_set
             (Grammar.classname_to_nt (ctor_name (fst p))) (fst p)
             (constructors st)).

Section WithEngine.

(** [parser.parse(s)] followed by [CollapseAmbiguities().transform(forest)]:
    the trees of the input for the grammar made of the productions, or an
    exception. *)
Variable engine : list production -> string -> Py.result (list tree).

(** The cursor-position order in force ([global_prec_order]). *)
Variable order : Poset.t.

(** The loop [for tree in ...] of [parses]; [acc] is the list [parses]
    built so far, in order.  An exception of the transformer drops the
    candidate ([except: continue]).  [str(v)] is evaluated outside the
    [try]: on an object that holds a raw tree in a field it raises
    [AttributeError], the tree having no method [str].  A candidate that is
    itself a raw tree prints as the text [Tree(...)] of the engine, which
    the number or quoted string it was read from does not reduce to: the
    check drops it. *)
Fixpoint filter_trees (st : state) (s : string) (trees seen : list tree)
    (acc : list term) {struct trees} : Py.result (list term) :=
  match trees with
  | [] => Py.ret acc
  | tree :: rest =>
      if existsb (tree_eqb tree) seen then filter_trees st s rest seen acc
      else
        let seen' := tree :: seen in
        match Transformer.transform (constructors st) tree with
        | inl _ => filter_trees st s rest seen' acc
        | inr (Transformer.Built v) =>
            let lhs := remove_whitespace s in
            let rhs := remove_whitespace (Printer.str order v) in
            b <-! Reduce.reducible_to lhs rhs;
            if b then filter_trees st s rest seen' (acc ++ [v])
            else filter_trees st s rest seen' acc
        | inr Transformer.Raw => filter_trees st s rest seen' acc
        | inr Transformer.Holds => Py.raise Py.AttributeError
        end
  end.

Definition parses (st : state) (s : string) : Py.result (list term) :=
  forest <-! engine (productions st) s;
  filter_trees st s forest [] [].

Definition parse (st : state) (s : string) : Py.result term :=
  l <-! parses st s;
  match l with
  | [] => Py.raise (Py.ValueError (Py.NoParseFor s))
  | [v] => Py.ret v
  | _ => Py.raise (Py.ValueError (Py.AmbiguousParseFor s l))
  end.

End WithEngine.

End Parser.

(** ** The derivation engine *)

Module Lark.

(** Modelled from the spec: the external derivation engine ([lark], run
    with [ambiguity='explicit']) on the grammar text built by
    [make_grammar].  It returns every derivation of the input for the one
    nonterminal [term]: a registered production, a parenthesized term
    (inlined, the rule being [?term]) or an atom, which is an identifier, a
    number or a quoted string; whitespace is ignored between tokens and an
    atom is the longest match of its terminal.  The trees of the rules
    [number] and [string] hold the token read.  Where a literal of a
    production reads the same text as a number or a quoted string, the
    literal is read: with [Top] declared, [1] is [Top()] and no number, as
    the tests of Example 1 on [1 + 1] show. *)

Inductive sym : Type :=
| NT
| Lit (l : list ascii).

Definition chars (s : string) : list ascii := list_ascii_of_string s.

(** [" ".join("term" if s is None else "" if s == "" else escape(s) for s in p)]. *)
Definition syms (p : list (option string)) : list sym :=
  flat_map (fun i => match i with
                     | None => [NT]
                     | Some EmptyString => []
                     | Some l => [Lit (chars l)]
                     end) p.

Definition rule (p : production) : string * list sym :=
  (Grammar.classname_to_nt (ctor_name (fst p)), syms (snd p)).

(** [common.WS]. *)
Definition is_ws (c : ascii) : bool :=
  let n := nat_of_ascii c in
  Nat.eqb n 32 || Nat.eqb n 9 || Nat.eqb n 10 || Nat.eqb n 12 || Nat.eqb n 13.

Definition is_digit (c : ascii) : bool :=
  let n := nat_of_ascii c in Nat.leb 48 n && Nat.leb n 57.

(** The first character of [common.CNAME], then the characters after it. *)
Definition is_idstart (c : ascii) : bool :=
  let n := nat_of_ascii c in
  Nat.eqb n 95 || (Nat.leb 65 n && Nat.leb n 90) || (Nat.leb 97 n && Nat.leb n 122).

Definition is_idchar (c : ascii) : bool := is_idstart c || is_digit c.

Fixpoint strip_ws (s : list ascii) : list ascii :=
  match s with
  | c :: s' => if is_ws c then strip_ws s' else s
  | [] => []
  end.

Fixpoint strip_prefix (l s : list ascii) : option (list ascii) :=
  match l, s with
  | [], _ => Some s
  | c :: l', d :: s' => if Ascii.eqb c d then strip_prefix l' s' else None
  | _ :: _, [] => None
  end.

(** The ways of reading the literal [l] at the front of [s], directly or
    after the ignored whitespace. *)
Definition match_lit (l s : list ascii) : list (list ascii) :=
  match strip_prefix l s with
  | Some s' => [s']
  | None =>
      match strip_prefix l (strip_ws s) with
      | Some s' => [s']
      | None => []
      end
  end.

(** Whether the character after a segment continues an identifier. *)
Definition lookahead (s' : list ascii) (nxt : bool) : bool :=
  match s' with
  | [] => nxt
  | c :: _ => is_idchar c
  end.

Definition viable (rest : list sym) (s' : list ascii) : bool :=
  match rest with
  | Lit l :: _ => match match_lit l s' with [] => false | _ => true end
  | _ => true
  end.

(** Where the segment of a [term] item may end. *)
Definition split_points (rest : list sym) (s : list ascii) : list nat :=
  match rest with
  | [] => [length s]
  | _ => seq 1 (length s - 1)
  end.

(** The children lists of the derivations of a sequence of items from
    exactly [s], the part of the input that starts at position [i];
    [rec i seg nxt] derives a [term] from the segment [seg] at [i]. *)
Fixpoint match_items (rec : nat -> list ascii -> bool -> list tree)
    (its : list sym) (i : nat) (s : list ascii) (nxt : bool) {struct its}
  : list (list tree) :=
  match its with
  | [] => match s with [] => [[]] | _ => [] end
  | Lit l :: rest =>
      flat_map (fun s' => match_items rec rest (i + (length s - length s')) s' nxt)
               (match_lit l s)
  | NT :: rest =>
      flat_map
        (fun k =>
           let seg := firstn k s in
           let s' := skipn k s in
           if viable rest s' then
             match match_items rec rest (i + k) s' nxt with
             | [] => []
             | tails =>
                 flat_map (fun t => map (cons t) tails)
                          (rec i seg (lookahead s' nxt))
             end
           else [])
        (split_points rest s)
  end.

(** [CNAME -> identifier], the longest match. *)
Definition identifier (s : list ascii) (nxt : bool) : list tree :=
  match strip_ws s with
  | c :: s' =>
      if is_idstart c && forallb is_idchar s' && negb nxt
      then [Tree "identifier" [Token "CNAME" (string_of_list_ascii (c :: s'))]]
      else []
  | [] => []
  end.

(** The rest of the input after its leading digits. *)
Fixpoint skip_digits (s : list ascii) : list ascii :=
  match s with
  | c :: s' => if is_digit c then skip_digits s' else s
  | [] => []
  end.

Definition starts_with (p : ascii -> bool) (s : list ascii) : bool :=
  match s with
  | c :: _ => p c
  | [] => false
  end.

Definition is_sign (c : ascii) : bool :=
  Ascii.eqb c "+" || Ascii.eqb c "-".

Definition skip_sign (s : list ascii) : list ascii :=
  match s with
  | c :: s' => if is_sign c then s' else s
  | [] => []
  end.

(** [_EXP : ("e"|"E") SIGNED_INT], and the rest of the input after it. *)
Definition exponent (s : list ascii) : option (list ascii) :=
  match s with
  | c :: s' =>
      if (Ascii.eqb c "e" || Ascii.eqb c "E")
         && starts_with is_digit (skip_sign s')
      then Some (skip_digits (skip_sign s'))
      else None
  | [] => None
  end.

Definition skip_exponent (s : list ascii) : list ascii :=
  match exponent s with
  | Some r => r
  | None => s
  end.

(** [NUMBER : FLOAT | INT] with [FLOAT : INT _EXP | DECIMAL _EXP?] and
    [DECIMAL : INT "." INT? | "." INT]: the rest of the input after the
    longest match. *)
Definition number (s : list ascii) : option (list ascii) :=
  if starts_with is_digit s then
    let r := skip_digits s in
    match exponent r with
    | Some r' => Some r'
    | None =>
        match r with
        | c :: r1 =>
            if Ascii.eqb c "." then Some (skip_exponent (skip_digits r1))
            else Some r
        | [] => Some r
        end
    end
  else
    match s with
    | c :: r1 =>
        if Ascii.eqb c "." && starts_with is_digit r1
        then Some (skip_exponent (skip_digits r1))
        else None
    | [] => None
    end.

(** [common.SIGNED_NUMBER : ["+"|"-"] NUMBER]. *)
Definition signed_number (s : list ascii) : option (list ascii) :=
  number (skip_sign s).

Definition quote : ascii := ascii_of_nat 34.
Definition backslash : ascii := ascii_of_nat 92.
Definition newline : ascii := ascii_of_nat 10.

(** The inside of [common.ESCAPED_STRING] up to the closing quote, which is
    the first quote after an even number of backslashes; [escaped] tells
    whether an odd number of them has just been read.  The inside holds no
    line break. *)
Fixpoint string_inner (s : list ascii) (escaped : bool) {struct s}
  : option (list ascii) :=
  match s with
  | [] => None
  | c :: s' =>
      if Ascii.eqb c newline then None
      else if Ascii.eqb c backslash then string_inner s' (negb escaped)
      else if Ascii.eqb c quote then
        if escaped then string_inner s' false else Some s'
      else string_inner s' false
  end.

Definition escaped_string (s : list ascii) : option (list ascii) :=
  match s with
  | c :: s' => if Ascii.eqb c quote then string_inner s' false else None
  | [] => None
  end.

(** The literals of the productions. *)
Definition literals (rules : list (string * list sym)) : list (list ascii) :=
  flat_map (fun r => flat_map (fun x => match x with
                                        | Lit l => [l]
                                        | NT => []
                                        end) (snd r)) rules.

Definition same_text (w l : list ascii) : bool :=
  String.eqb (string_of_list_ascii w) (string_of_list_ascii l).

(** [ESCAPED_STRING -> string] and [SIGNED_NUMBER -> number]: the segment
    [s], followed in the input by [rest], is the text the terminal reads
    there, and no literal reads it. *)
Definition atom (lex : list ascii -> option (list ascii)) (data type_ : string)
    (lits : list (list ascii)) (s rest : list ascii) : list tree :=
  let w := strip_ws s in
  match lex (w ++ rest) with
  | Some r =>
      if Nat.eqb (length r) (length rest) && negb (existsb (same_text w) lits)
      then [Tree data [Token type_ (string_of_list_ascii w)]]
      else []
  | None => []
  end.

Definition inlined (children : list tree) : list tree :=
  match children with
  | [t] => [t]
  | _ => []
  end.

(** The derivations found so far: row [len - 1], column [i] holds the
    derivations of [term] from the [len] characters at position [i]. *)
Definition table : Type := list (list (list tree)).

Definition lookup (tab : table) (i : nat) (seg : list ascii) (nxt : bool)
  : list tree :=
  match length seg with
  | O => []
  | S l => nth i (nth l tab []) []
  end.

(** The derivations of [term] from the [len] characters at [i], from those
    of the shorter segments. *)
Definition derive_span (rules : list (string * list sym)) (cs : list ascii)
    (tab : table) (len i : nat) : list tree :=
  let s := firstn len (skipn i cs) in
  let rest := skipn (i + len) cs in
  let nxt := lookahead rest false in
  identifier s nxt
  ++ atom escaped_string "string" "ESCAPED_STRING" (literals rules) s rest
  ++ atom signed_number "number" "SIGNED_NUMBER" (literals rules) s rest
  ++ flat_map (fun r => map (Tree (fst r))
                            (match_items (lookup tab) (snd r) i s nxt))
              rules
  ++ flat_map inlined
       (match_items (lookup tab) [Lit (chars "("); NT; Lit (chars ")")] i s nxt).

(** The rows for the lengths [1 .. len]. *)
Fixpoint build (rules : list (string * list sym)) (cs : list ascii)
    (len : nat) {struct len} : table :=
  match len with
  | O => []
  | S l =>
      let tab := build rules cs l in
      tab ++ [map (derive_span rules cs tab (S l)) (seq 0 (length cs - l))]
  end.

Fixpoint rstrip_ws (s : list ascii) : list ascii :=
  match s with
  | [] => []
  | c :: s' =>
      match rstrip_ws s' with
      | [] => if is_ws c then [] else [c]
      | r => c :: r
      end
  end.

(** All derivations of the input; no derivation is an error of the
    engine. *)
Definition derive_all (ps : list production) (s : string)
  : Py.result (list tree) :=
  let cs := rstrip_ws (chars s) in
  match lookup (build (map rule ps) cs (length cs)) 0 cs false with
  | [] => Py.raise Py.UnexpectedInput
  | forest => Py.ret forest
  end.

End Lark.

(** ** The parser states reached by the examples *)

Module Session.

Import Examples.

Definition declare (c : mixclass) : Parser.state -> Parser.state :=
  Parser.add_production (Grammar.production_of c).

(** After the import of the module: [F] is registered. *)
Definition st0 : Parser.state :=
  Parser.add_production Grammar.production_F Parser.initial.

(** After Example 1. *)
Definition st1 : Parser.state :=
  declare Pow (declare Plus (declare Times (declare Top st0))).

(** After Example 2. *)
Definition st2 : Parser.state :=
  declare Eq (declare Exists (declare Forall st1)).

(** After the declarations of Example 4. *)
Definition st4 : Parser.state := declare App (declare Lam st2).

Definition parse1 : string -> Py.result term :=
  Parser.parse Lark.derive_all order1 st1.
Definition parse2 : string -> Py.result term :=
  Parser.parse Lark.derive_all order2 st2.
Definition parse4 : string -> Py.result term :=
  Parser.parse Lark.derive_all order4 st4.

End Session.

(** ** The printer as the specification words it *)

Module PrinterSpec.

Import Printer.

(** The entry token of a kind and the exit token of its [i]-th declared
    field, counted from [0]. *)
Definition entry (c : mixclass) : string := cname c.

Definition exit_ (c : mixclass) (i : nat) : string :=
make_prec (cname c) (nth i (map fst (annotations c)) (cname c)).

(** [innerRight]: the exit token of the last field. *)
Definition inner_right (c : mixclass) : string :=
exit_ c (length (annotations c) - 1).

(** The incoming bounds of the [i]-th field as stated: the exit of the field
    before it (the entry for the first field) and its own exit when no
    bracket is written, bottom on both sides for every field otherwise. *)
Definition bounds_stated (c : mixclass) (b : bool) (i : nat) : string * string :=
if b then ("bot", "bot")
else (match i with O => entry c | S j => exit_ c j end, exit_ c i).

(** The incoming bounds of the [i]-th field, amended: under a bracket only
    the left bound of the first field and the right bound of the last field
    are bottom. *)
Definition bounds_amended (c : mixclass) (b : bool) (i : nat) : string * string :=
(match i with
 | O => if b then "bot" else entry c
 | S j => exit_ c j
 end,
 if b && Nat.eqb (S i) (length (annotations c)) then "bot" else exit_ c i).

(** The fields in order, each with its bounds. *)
Definition items_with (bounds : nat -> string * string) (c : mixclass)
  : list item :=
imap (fun i (kv : string * annotation) =>
        (fst (bounds i),
         ((if is_field (snd kv) then Some (fst kv) else None), Some (snd kv)),
         snd (bounds i)))
     (annotations c).

(** [render(node, inLeft, inRight, mode)] for a choice of field bounds. *)
Fixpoint render (bounds : mixclass -> bool -> nat -> string * string)
    (o : Poset.t) (mode : option string) (in_left in_right : string)
    (t : term) {struct t} : string :=
match t with
| V x => NameOps.str x
| F x e =>
    let sep := match mode with None => "." | Some _ => ". " end in
    (NameOps.str x ++ sep ++ render bounds o mode "bot" in_right e)%string
| Mix c args =>
    let b := negb (Poset.le o in_left (entry c)
                   && Poset.le o in_right (inner_right c)) in
    let res := render_items (render bounds o mode) mode args
                            (items_with (bounds c b) c) in
    if b then bracket c mode res else res
end.

(** The entry of [precs] made from an annotation. *)
Definition entry_of (name : string) (kv : string * annotation) : prec_entry :=
(make_prec name (fst kv),
 (if is_field (snd kv) then Some (fst kv) else None),
 Some (snd kv)).

End PrinterSpec.

(** * Notions used by the properties *)

(** ** Induction on terms and on trees *)

Section TermInd.

Variable P : term -> Prop.
Hypothesis HV : forall x, P (V x).
Hypothesis HF : forall x e, P e -> P (F x e).
Hypothesis HMix : forall c args, Forall P args -> P (Mix c args).

Fixpoint term_ind' (t : term) : P t :=
  match t with
  | V x => HV x
  | F x e => HF x e (term_ind' e)
  | Mix c args =>
      HMix c args
        ((fix all (l : list term) : Forall P l :=
            match l with
            | [] => @List.Forall_nil _ P
            | a :: r => @List.Forall_cons _ P a r (term_ind' a) (all r)
            end) args)
  end.

End TermInd.

Section TreeInd.

Variable P : tree -> Prop.
Hypothesis HToken : forall ty v, P (Token ty v).
Hypothesis HTree : forall d l, Forall P l -> P (Tree d l).

Fixpoint tree_ind' (t : tree) : P t :=
match t with
| Token ty v => HToken ty v
| Tree d l =>
    HTree d l
      ((fix all (l : list tree) : Forall P l :=
          match l with
          | [] => @List.Forall_nil _ P
          | a :: r => @List.Forall_cons _ P a r (tree_ind' a) (all r)
          end) l)
end.

End TreeInd.

(** ** Kinds and renamings *)

Module EqSpec.

(** The kind of a term, as compared by [type(self) is type(other)]. *)
Inductive kind : Type :=
| KV
| KF
| KMix (name : string).

Definition kind_of (t : term) : kind :=
  match t with
  | V _ => KV
  | F _ _ => KF
  | Mix c _ => KMix (cname c)
  end.

(** A renaming that sends every name of its domain to itself. *)
Definition identity_on (renaming : gmap Name Name) : Prop :=
  forall x y, renaming !! x = Some y -> x = y.

End EqSpec.

(** ** Free names of a substitution instance *)

Module SubstSpec.

Import Binding.

(** A name whose disambiguator, if any, was issued before the counter
    reached [g]. *)
Definition below (g : nat) (a : Name) : Prop :=
  match name_n a with
  | None => True
  | Some k => k < g
  end.

(** The free names a substitution puts in place of a free name. *)
Definition image (substitution : gmap Name term) (y : Name) : gset Name :=
  match substitution !! y with
  | Some u => fvs u
  | None => {[ y ]}
  end.

(** The argument loops of [fvs] and [subst], named. *)
Definition fvs_list : list term -> gset Name :=
  fix all (l : list term) : gset Name :=
    match l with
    | [] => ∅
    | a :: r => fvs a ∪ all r
    end.

Definition subst_list (substitution : gmap Name term)
  : list term -> nat -> list term * nat :=
  fix all (l : list term) (g : nat) : list term * nat :=
    match l with
    | [] => ([], g)
    | a :: r =>
        let (a', g1) := subst a substitution g in
        let (r', g2) := all r g1 in
        (a' :: r', g2)
    end.

(** What the free names of a substitution instance must be when no name
    is captured. *)
Definition no_capture (t : term) (substitution : gmap Name term) (g : nat)
  : Prop :=
  forall a, a ∈ fvs (fst (subst t substitution g))
            <-> exists y, y ∈ fvs t /\ a ∈ image substitution y.

(** The names the fresh names must differ from: the free names that are
    kept, and the free names of the replacements. *)
Definition issued (t : term) (substitution : gmap Name term) (g : nat)
  : Prop :=
  (forall a, a ∈ fvs t -> substitution !! a = None -> below g a)
  /\ (forall y u, substitution !! y = Some u ->
                  forall a, a ∈ fvs u -> below g a).

(** Every name of a term, bound or free. *)
Fixpoint names (t : term) : gset Name :=
  match t with
  | V x => {[ x ]}
  | F x e => {[ x ]} ∪ names e
  | Mix _ args =>
      (fix all (l : list term) : gset Name :=
         match l with
         | [] => ∅
         | a :: r => names a ∪ all r
         end) args
  end.

Definition names_list : list term -> gset Name :=
  fix all (l : list term) : gset Name :=
    match l with
    | [] => ∅
    | a :: r => names a ∪ all r
    end.

(** The invariant of the counter: the disambiguators of a term, and of the
    replacements of a substitution, were issued before the counter reached
    [g]. *)
Definition names_below (g : nat) (t : term) : Prop :=
  forall a, a ∈ names t -> below g a.

Definition range_below (g : nat) (substitution : gmap Name term) : Prop :=
  forall y u, substitution !! y = Some u -> names_below g u.

End SubstSpec.

(** ** The trees already seen by [parses] *)

Module FilterSpec.

(** The term [t] passes the check of [parses] on the input [s]. *)
Definition passes (order : Poset.t) (s : string) (t : term) : Prop :=
Reduce.reducible_to (remove_whitespace s)
                    (remove_whitespace (Printer.str order t)) = inr true.

(** A tree already seen that builds a passing term has its term in the
    list. *)
Definition seen_kept (order : Poset.t) (st : Parser.state) (s : string)
    (seen : list tree) (acc : list term) : Prop :=
forall tr t, existsb (tree_eqb tr) seen = true ->
             Transformer.transform (Parser.constructors st) tr
             = inr (Transformer.Built t) ->
             passes order s t -> In t acc.

(** The loop of [parses] gets past the tree: the transformer raises, which
    drops it, or returns a raw tree, or builds a term on which the check
    returns a boolean. *)
Definition decided (order : Poset.t) (st : Parser.state) (s : string)
    (tree : tree) : Prop :=
match Transformer.transform (Parser.constructors st) tree with
| inl _ => True
| inr (Transformer.Built v) =>
    Py.returns (Reduce.reducible_to (remove_whitespace s)
                  (remove_whitespace (Printer.str order v))) = true
| inr Transformer.Raw => True
| inr Transformer.Holds => False
end.

End FilterSpec.

(** ** Sample terms *)

Module Samples.

Import Binding Examples.

Definition ident (x : string) : tree := Tree "identifier" [Token "CNAME" x].
Definition var (x : string) : term := V (MkName x None).

Definition x_ : Name := MkName "x" None.
Definition y_ : Name := MkName "y" None.
Definition z_ : Name := MkName "z" None.

(** [Forall(F('x', lambda x: Exists(F('y', lambda y: Eq(x, y)))))], built
    with the counter at [0]. *)
Definition forall_exists : term :=
  fst (binder "x"
         (fun x g =>
            let (b, g') := binder "y" (fun y g => (eq_ x y, g)) g in
            (Mix Exists [b], g'))
         0).

Definition closed_example : term := Mix Forall [forall_exists].

(** [App(Lam(F('a', lambda a: V(Name('y')))), Lam(F('y', lambda y: y)))],
    built with the counter at [0]. *)
Definition siblings : term :=
  let (l, g) := binder "a" (fun _ g => (V (MkName "y" None), g)) 0 in
  let (r, _) := binder "y" (fun y g => (y, g)) g in
  app (Mix Lam [l]) (Mix Lam [r]).

End Samples.

(** * More of the source *)

(** ** More of the binding operations *)

Module BindingMore.

Import Binding.

(** [F.get_unwrap]: [e = self.fresh()], then the pair [[e.x, e.e]] read from
    the freshened binder. *)
Definition unwrap (x : Name) (e : term) : counter (Name * term) :=
fun g =>
  match fresh (F x e) ∅ g with
  | (F x' e', g') => ((x', e'), g')
  | (_, g') => ((x, e), g')
  end.

(** The number of binders of a term. *)
Fixpoint binders (t : term) : nat :=
match t with
| V _ => 0
| F _ e => S (binders e)
| Mix _ args =>
    (fix all (l : list term) : nat :=
       match l with
       | [] => 0
       | a :: r => binders a + all r
       end) args
end.

(** The bound names of a term, outermost first and from left to right. *)
Fixpoint bound (t : term) : list Name :=
match t with
| V _ => []
| F x e => x :: bound e
| Mix _ args =>
    (fix all (l : list term) : list Name :=
       match l with
       | [] => []
       | a :: r => bound a ++ all r
       end) args
end.

(** The argument loop of [fresh], named. *)
Definition fresh_list (renaming : gmap Name Name)
  : list term -> nat -> list term * nat :=
fix all (l : list term) (g : nat) : list term * nat :=
  match l with
  | [] => ([], g)
  | a :: r =>
      let (a', g1) := fresh a renaming g in
      let (r', g2) := all r g1 in
      (a' :: r', g2)
  end.

Definition binders_list : list term -> nat :=
fix all (l : list term) : nat :=
  match l with
  | [] => 0
  | a :: r => binders a + all r
  end.

Definition bound_list : list term -> list Name :=
fix all (l : list term) : list Name :=
  match l with
  | [] => []
  | a :: r => bound a ++ all r
  end.

End BindingMore.

(** ** Notions for the display-name simplification *)

Module SimplifyMore.

Import Binding Simplify.

(** The argument loop of [simple_names], named. *)
Definition go_list (renaming : gmap Name Name)
  : list term -> gset Name -> list term * gset Name :=
fix all (l : list term) (in_use : gset Name) : list term * gset Name :=
  match l with
  | [] => ([], in_use)
  | a :: r =>
      let (a', u1) := go a renaming in_use in
      let (r', u2) := all r u1 in
      (a' :: r', u2)
  end.

(** The name a renaming gives to a name. *)
Definition renamed (renaming : gmap Name Name) (y : Name) : Name :=
default y (renaming !! y).

(** Every name given by the renaming is in use. *)
Definition range_in_use (renaming : gmap Name Name) (in_use : gset Name) : Prop :=
forall y z, renaming !! y = Some z -> z ∈ in_use.

End SimplifyMore.

(** ** Class names and nonterminals *)

Module GrammarNames.

Import Grammar.

Definition is_lower (c : ascii) : bool :=
let n := nat_of_ascii c in Nat.leb 97 n && Nat.leb n 122.

Definition upper (c : ascii) : ascii :=
if is_lower c then ascii_of_nat (nat_of_ascii c - 32) else c.

Definition underscore : ascii := "_"%char.

(** The generator of [nt_to_classname] over the pairs [(prev, c)] of
    [zip(s[1:], s[2:])]: [''] if [c == '_'], [c.upper()] if [prev == '_'],
    else [c]. *)
Fixpoint unmunge (prev : ascii) (s : string) : string :=
match s with
| EmptyString => EmptyString
| String c s' =>
    if Ascii.eqb c underscore then unmunge c s'
    else if Ascii.eqb prev underscore then String (upper c) (unmunge c s')
    else String c (unmunge c s')
end.

(** [nt_to_classname]. *)
Definition nt_to_classname (s : string) : string :=
match s with
| String _ (String p rest) => unmunge p rest
| _ => EmptyString
end.

(** A class name made of ASCII characters other than ['_']. *)
Definition plain (s : string) : bool :=
all_chars (fun c => Nat.ltb (nat_of_ascii c) 128 && negb (Ascii.eqb c underscore)) s.

End GrammarNames.

(** ** Renderings without their parentheses *)

Module PrinterMore.

(** A string without its parenthesis characters. *)
Fixpoint strip_parens (s : string) : string :=
match s with
| EmptyString => EmptyString
| String c s' =>
    if in_parens c then strip_parens s' else String c (strip_parens s')
end.

(** Every mixfix node of the term is of a class without a [bracket]
    attribute, which [mixfix] then sets to [parens]. *)
Fixpoint default_brackets (t : term) : Prop :=
match t with
| V _ => True
| F _ e => default_brackets e
| Mix c args =>
    bracket_attr c = None
    /\ (fix all (l : list term) : Prop :=
          match l with [] => True | a :: l' => default_brackets a /\ all l' end) args
end.

(** Two lists of items with the same fields and literals, whatever their
    bounds. *)
Definition same_fields (its its' : list Printer.item) : Prop :=
Forall2 (fun i j : Printer.item => snd (fst i) = snd (fst j)) its its'.

End PrinterMore.

(** ** Sequences of declarations *)

Module Registry.

(** The nonterminal a production is registered under. *)
Definition nt_of (p : production) : string :=
Grammar.classname_to_nt (ctor_name (fst p)).

(** The state after [add_production] has been called on the productions of
    [ps], in order. *)
Definition register_all (ps : list production) (st : Parser.state)
  : Parser.state :=
fold_left (fun st p => Parser.add_production p st) ps st.

(** The class of the last production of [ps] registered under [k]. *)
Fixpoint latest (k : string) (ps : list production) : option ctor :=
match ps with
| [] => None
| p :: r =>
    match latest k r with
    | Some c => Some c
    | None => if String.eqb (nt_of p) k then Some (fst p) else None
    end
end.

End Registry.

(** ** The terms of Example 1 by size *)

Module Sized.

Import Examples.

(** Row [k] holds the terms built from [Top], [Times], [Plus] and [Pow] with
    [k] operators, for [k] up to [n]. *)
Fixpoint rows (n : nat) : list (list term) :=
match n with
| O => [[top]]
| S m =>
    let tab := rows m in
    tab ++ [flat_map
              (fun k =>
                 flat_map
                   (fun a =>
                      flat_map (fun b => [times a b; plus a b; pow a b])
                               (nth (m - k) tab []))
                   (nth k tab []))
              (seq 0 (S m))]
end.

(** The terms with at most [n] operators. *)
Definition upto (n : nat) : list term := concat (rows n).

End Sized.

(** ** Shadowing, ranks and declared classes *)

Module ExtraSpec.

(** No binder of the term binds a name of [above] or a name bound by a
    binder around it. *)
Fixpoint no_shadow (above : gset Name) (t : term) : Prop :=
match t with
| V _ => True
| F x e => (x ∉ above) /\ no_shadow (above ∪ {[ x ]}) e
| Mix _ args =>
    (fix all (l : list term) : Prop :=
       match l with [] => True | a :: l' => no_shadow above a /\ all l' end) args
end.

(** The place of a disambiguator in the order none, 0, 1, 2, ... *)
Definition rank (n : option nat) : nat :=
match n with
| None => 0
| Some k => S k
end.

(** The registered mixfix classes have annotations
    ([assert len(annotations) != 0] in [mixfix]). *)
Definition declared_nonempty (constructors : list (string * ctor)) : Prop :=
forall k c, assoc k constructors = Some (CtorMix c) -> annotations c <> [].

End ExtraSpec.

(** ** The printer of [core.py] *)

Module Core.

(** A class decorated by the [mixfix] of [core.py]: an annotation is a
    string literal ([type(v) is str]) or a field; [bracket] takes the string
    alone. *)
Record coreclass : Type := MkCore {
  core_name : string;
  core_annotations : list (string * option string);
  core_bracket : option (string -> string)
}.

(** The instances of such classes; only they have a method [pretty]. *)
#[warnings="-register-all"]
Inductive cterm : Type :=
| CMix (c : coreclass) (args : list cterm).

(** [parens] of [core.py]. *)
Definition parens (s : string) : string := "\left(" ++ s ++ "\right)".

Definition bracket (c : coreclass) (s : string) : string :=
match core_bracket c with
| Some b => b s
| None => parens s
end.

(** The generator [items]: [zip(cons((name, ''), annotations.items()),
    annotations.items())], each pair turned into
    [(make_prec(j), make_prec(k), (k, v))]; [j] is the key before [k]. *)
Fixpoint items (name j : string) (anns : list (string * option string))
  : list (string * string * (string * option string)) :=
match anns with
| [] => []
| (k, v) :: rest =>
    (Printer.make_prec name j, Printer.make_prec name k, (k, v))
      :: items name k rest
end.

(** The literals in front of the next field, then its bounds and the items
    after it. *)
Fixpoint next_field (its : list (string * string * (string * option string)))
  : string * option (string * string * list (string * string * (string * option string))) :=
match its with
| [] => ("", None)
| (l, r, (_, None)) :: rest => ("", Some (l, r, rest))
| (_, _, (_, Some v)) :: rest =>
    let (lits, nxt) := next_field rest in ((v ++ lits)%string, nxt)
end.

(** The loop [for (left_prec_inner, right_prec_inner, (k, v)) in items]. *)
Fixpoint render_items (rec : string -> string -> cterm -> string)
    (args : list cterm) (its : list (string * string * (string * option string)))
    {struct args} : string :=
match next_field its with
| (lits, None) => lits
| (lits, Some (l, r, rest)) =>
    match args with
    | [] => lits
    | a :: args' => (lits ++ rec l r a ++ render_items rec args' rest)%string
    end
end.

(** [pretty(self, left_prec, right_prec, prec_order)]. *)
Fixpoint pretty (o : Poset.t) (left_prec right_prec : string) (t : cterm)
    {struct t} : string :=
match t with
| CMix c args =>
    let name := core_name c in
    let res := render_items (pretty o) args
                 (items name name (core_annotations c)) in
    match core_annotations c with
    | [] => res
    | _ =>
        let right_prec_inner :=
          Printer.make_prec name
            (List.last (map fst (core_annotations c)) name) in
        if Poset.le o left_prec name && Poset.le o right_prec right_prec_inner
        then res else bracket c res
    end
end.

(** The class of [syntax.py] with the same name, fields and literals, the
    literals having no spelling by mode. *)
Definition to_class (c : coreclass) : mixclass :=
MkClass (core_name c)
        (map (fun kv : string * option string =>
                (fst kv,
                 match snd kv with
                 | Some s => AStr (MkStr s [])
                 | None => AField
                 end))
             (core_annotations c))
        (Some (fun _ s => bracket c s)).

Fixpoint to_term (t : cterm) : term :=
match t with
| CMix c args => Mix (to_class c) (map to_term args)
end.

(** The bounds of the [i]-th field in [core.py]: the same with and without
    a bracket. *)
Definition bounds_plain (c : mixclass) (b : bool) (i : nat) : string * string :=
PrinterSpec.bounds_amended c false i.

(** The annotation of [syntax.py] for an annotation of [core.py]. *)
Definition conv (kv : string * option string) : string * annotation :=
(fst kv, match snd kv with Some s => AStr (MkStr s []) | None => AField end).

(** Every class of the term has an annotation. *)
Fixpoint annotated (t : cterm) : Prop :=
match t with
| CMix c args =>
    core_annotations c <> []
    /\ (fix all (l : list cterm) : Prop :=
          match l with [] => True | a :: l' => annotated a /\ all l' end) args
end.

Section CtermInd.

Variable P : cterm -> Prop.
Hypothesis HMix : forall c args, Forall P args -> P (CMix c args).

Fixpoint cterm_ind' (t : cterm) : P t :=
match t with
| CMix c args =>
    HMix c args
      ((fix all (l : list cterm) : Forall P l :=
          match l with
          | [] => @List.Forall_nil _ P
          | a :: r => @List.Forall_cons _ P a r (cterm_ind' a) (all r)
          end) args)
end.

End CtermInd.

End Core.

(** ** The example classes of [core.py] *)

Module CoreExamples.

Import Core.

Definition simple_parens (s : string) : string := "(" ++ s ++ ")".

Definition Top : coreclass := MkCore "Top" [("s", Some "1")] (Some simple_parens).
Definition Times : coreclass :=
MkCore "Times" [("p", None); ("times", Some " * "); ("q", None)] (Some simple_parens).
Definition Plus : coreclass :=
MkCore "Plus" [("p", None); ("plus", Some " + "); ("q", None)] (Some simple_parens).
Definition Pow : coreclass :=
MkCore "Pow" [("p", None); ("to", Some " -> "); ("q", None)] (Some simple_parens).

Definition top : cterm := CMix Top [].
Definition times (p q : cterm) : cterm := CMix Times [p; q].
Definition plus (p q : cterm) : cterm := CMix Plus [p; q].
Definition pow (p q : cterm) : cterm := CMix Pow [p; q].

End CoreExamples.

(** * Properties *)

(** ** The canonical-reduction check *)

Module ReduceFacts.

Import Reduce.

Lemma drops_parens_refl s : drops_parens s s.
Proof. induction s; constructor; assumption. Qed.

(** A parenthesis at the head of the reduct can be dropped as well. *)
Lemma drops_parens_tail s c t :
  in_parens c = true -> drops_parens s (String c t) -> drops_parens s t.
Proof.
  intros Hc. induction s as [|d s IH]; intros H; inversion H; subst.
  - apply dp_drop; assumption.
  - apply dp_drop; auto.
Qed.

Lemma ascii_eqb_true c d : Ascii.eqb c d = true -> c = d.
Proof. apply Ascii.eqb_eq. Qed.

(** The loop accepts every genuine reduction. *)
Lemma walk_complete s : forall t, drops_parens s t -> walk s t = inr true.
Proof.
  induction s as [|c s IH]; intros t H.
  - inversion H; reflexivity.
  - destruct t as [|tc t']; [reflexivity|].
    simpl. inversion H; subst.
    + rewrite Ascii.eqb_refl. auto.
    + destruct (Ascii.eqb c tc) eqn:E.
      * apply ascii_eqb_true in E; subst tc.
        apply IH. eapply drops_parens_tail; eassumption.
      * match goal with Hp : in_parens c = true |- _ => rewrite Hp end.
        auto.
Qed.

(** When the loop answers [True], the reduct is what is left of a prefix
    of [s] once parentheses are dropped; the rest of [s] is not read. *)
Lemma walk_sound s : forall t,
  walk s t = inr true ->
  exists s1 s2, s = (s1 ++ s2)%string /\ drops_parens s1 t.
Proof.
  induction s as [|c s IH]; intros t H.
  - destruct t; [|discriminate].
    exists EmptyString, EmptyString. split; [reflexivity|constructor].
  - destruct t as [|tc t'].
    + exists EmptyString, (String c s). split; [reflexivity|constructor].
    + simpl in H. destruct (Ascii.eqb c tc) eqn:E.
      * apply ascii_eqb_true in E; subst tc.
        destruct (IH _ H) as (s1 & s2 & -> & Hd).
        exists (String c s1), s2. split; [reflexivity|constructor; assumption].
      * destruct (in_parens c) eqn:Ep; [|discriminate].
        destruct (IH _ H) as (s1 & s2 & -> & Hd).
        exists (String c s1), s2. split; [reflexivity|].
        apply dp_drop; assumption.
Qed.

Lemma mem_char_cons c d s : mem_char c s = true -> mem_char c (String d s) = true.
Proof. intros H; simpl; rewrite H; apply orb_true_r. Qed.

Lemma all_chars_weaken (p q : ascii -> bool) s :
  (forall c, p c = true -> q c = true) ->
  all_chars p s = true -> all_chars q s = true.
Proof.
  intros Hpq. induction s as [|c s IH]; simpl; [reflexivity|].
  intros H. apply andb_prop in H as [H1 H2].
  rewrite (Hpq _ H1), (IH H2). reflexivity.
Qed.

Lemma drops_parens_chars s t :
  drops_parens s t ->
  all_chars (fun c => mem_char c t || in_parens c) s = true
  /\ all_chars (fun c => mem_char c s || in_parens c) t = true.
Proof.
  induction 1 as [|c s t _ [IH1 IH2]|c s t Hc _ [IH1 IH2]]; simpl.
  - split; reflexivity.
  - rewrite !Ascii.eqb_refl. simpl. split.
    + eapply all_chars_weaken; [|exact IH1]. intros d Hd; simpl in *.
      destruct (Ascii.eqb d c); [reflexivity|exact Hd].
    + eapply all_chars_weaken; [|exact IH2]. intros d Hd; simpl in *.
      destruct (Ascii.eqb d c); [reflexivity|exact Hd].
  - split.
    + rewrite Hc, orb_true_r. exact IH1.
    + eapply all_chars_weaken; [|exact IH2]. intros d Hd; simpl in *.
      destruct (Ascii.eqb d c); [reflexivity|exact Hd].
Qed.

(** The check accepts every genuine reduction, without raising. *)
Lemma reducible_to_complete s t :
  drops_parens s t -> reducible_to s t = inr true.
Proof.
  intros H. unfold reducible_to, symdiff_nonparen, diff_nonparen.
  destruct (drops_parens_chars _ _ H) as [H1 H2]. rewrite H1, H2. simpl.
  destruct (String.eqb s t); [reflexivity|].
  apply walk_complete; assumption.
Qed.

Lemma reducible_to_sound s t :
  reducible_to s t = inr true ->
  exists s1 s2, s = (s1 ++ s2)%string /\ drops_parens s1 t.
Proof.
  unfold reducible_to. destruct (String.eqb s t) eqn:E.
  - apply String.eqb_eq in E; subst t. intros _.
    exists s, EmptyString. split; [|apply drops_parens_refl].
    clear. induction s as [|c s IH]; [reflexivity|].
    change (String c s = String c (s ++ "")). f_equal. exact IH.
  - destruct (symdiff_nonparen s t); [discriminate|].
    destruct (diff_nonparen s t); [discriminate|].
    apply walk_sound.
Qed.

(** A reduction never lengthens a string. *)
Lemma drops_parens_length s t :
  drops_parens s t -> String.length t <= String.length s.
Proof. induction 1; simpl; lia. Qed.

Lemma drops_parens_same_length s t :
  drops_parens s t -> String.length t = String.length s -> s = t.
Proof.
  induction 1 as [|c s t H IH|c s t Hc H IH]; simpl; intros Hl.
  - reflexivity.
  - f_equal. apply IH. lia.
  - apply drops_parens_length in H. lia.
Qed.

End ReduceFacts.

(** ** The parser front end *)

Module ParserFacts.

Import Reduce Examples Session Samples.

(** C10: [reducible_to] does not return a boolean on every pair of
    strings.  On [s = "a"] and [t = "aa"] the loop reads [s[1]] and raises
    [IndexError]; so it does on the pair [f(a)(1*1)], [f(a(1*1))], which
    [parses] reaches on the input [f(a)(1*1)]. *)
Theorem reducible_to_index_error :
  reducible_to "a" "aa" = inl Py.IndexError
  /\ reducible_to "f(a)(1*1)" "f(a(1*1))" = inl Py.IndexError
  /\ ~ (forall s t, Py.returns (reducible_to s t) = true).
Proof.
  split; [reflexivity|]. split; [reflexivity|].
  intros H. specialize (H "a" "aa"). discriminate H.
Qed.

(** The loop stops at the end of the reduct: what is left of the input is
    not read, and a longer input with the same characters is accepted. *)
Lemma reducible_to_ignores_rest :
  reducible_to "aa" "a" = inr true /\ ~ drops_parens "aa" "a".
Proof.
  split; [reflexivity|].
  intros H. inversion H; subst.
  - match goal with H' : drops_parens "a" "" |- _ => inversion H'; subst end.
    discriminate.
  - discriminate.
Qed.

(** The loop raises whenever the reduct continues after the input has
    been read to its end. *)
Lemma walk_prefix_raises s c t :
  Reduce.walk s (s ++ String c t) = inl Py.IndexError.
Proof.
  induction s as [|d s IH]; [reflexivity|].
  change (String d s ++ String c t)%string with (String d (s ++ String c t)).
  simpl. rewrite Ascii.eqb_refl. exact IH.
Qed.

(** C3: the disambiguator does not decide the reduction to the canonical
    rendering on every candidate.  With the grammar and the precedences of
    Example 4 and the input [f(a)(1*1)], the derivation read as
    [App(f, App(a, Times(Top, Top)))] is constructed and renders as
    [f(a(1*1))], which is not the input with parentheses dropped; instead
    of dropping the candidate, [reducible_to] raises [IndexError], and so
    does [parses]. *)
Theorem parses_index_error :
  let s := "f(a)(1*1)" in
  let tr := Tree "c_app" [ident "f";
              Tree "c_app" [ident "a"; Tree "c_times" [Tree "c_top" []; Tree "c_top" []]]] in
  let v := app (var "f") (app (var "a") (times top top)) in
  (exists forest, Lark.derive_all (Parser.productions st4) s = inr forest
                  /\ In tr forest)
  /\ Transformer.transform (Parser.constructors st4) tr = inr (Transformer.Built v)
  /\ remove_whitespace (Printer.str order4 v) = "f(a(1*1))"
  /\ ~ drops_parens (remove_whitespace s) "f(a(1*1))"
  /\ reducible_to (remove_whitespace s) "f(a(1*1))" = inl Py.IndexError
  /\ Parser.parses Lark.derive_all order4 st4 s = inl Py.IndexError.
Proof.
  cbv zeta. split; [|split; [|split; [|split; [|split]]]].
  - eexists. split; [vm_compute; reflexivity|].
    simpl. repeat (first [left; reflexivity | right]).
  - vm_compute. reflexivity.
  - vm_compute. reflexivity.
  - intros H. apply ReduceFacts.drops_parens_same_length in H;
      [discriminate H|reflexivity].
  - vm_compute. reflexivity.
  - vm_compute. reflexivity.
Qed.

Section AnyEngine.

Variable engine : list production -> string -> Py.result (list tree).
Variable order : Poset.t.
Variable st : Parser.state.
Variable s : string.

Local Abbreviation parses := (Parser.parses engine order st s).
Local Abbreviation parse := (Parser.parse engine order st s).

(** [parse] on the outcome of [parses]: it returns a term exactly when
    [parses] yields that single term; it raises the no-parse error on an
    empty list and the ambiguity error, carrying the whole list, on two or
    more terms; an exception of [parses] is passed on. *)
Lemma parse_unique_or_fails :
  (forall v, parse = inr v <-> parses = inr [v])
  /\ (parses = inr [] -> parse = inl (Py.ValueError (Py.NoParseFor s)))
  /\ (forall l, parses = inr l -> 2 <= length l ->
                parse = inl (Py.ValueError (Py.AmbiguousParseFor s l)))
  /\ (forall e, parses = inl e -> parse = inl e).
Proof.
  unfold Parser.parse, Py.bind, Py.raise, Py.ret.
  destruct parses as [e|[|v [|w l]]];
    (split; [intros u; split; intros H; congruence|]);
    (split; [intros H; congruence|]);
    (split; [intros l' H Hl; inversion H; subst; simpl in Hl;
             try lia; reflexivity
            |intros e' H; congruence]).
Qed.

End AnyEngine.

(** C4: [parse] does not, on every input, return one term or fail with one
    of the two parse errors.  With the grammar and the precedences of
    Example 4, the input [f(a)(1*1)] has two derivations.  The one read as
    [App(App(f, a), Times(Top, Top))] renders as [fa(1*1)] and passes the
    check: it is the one candidate that survives.  On the other, which
    renders as [f(a(1*1))], the check reads past the end of the input, and
    [parse] raises [IndexError]: it returns no term, and raises neither the
    no-parse error nor the ambiguity error. *)
Theorem parse_index_error :
  let s := "f(a)(1*1)" in
  let one := Tree "c_times" [Tree "c_top" []; Tree "c_top" []] in
  let tr1 := Tree "c_app" [ident "f"; Tree "c_app" [ident "a"; one]] in
  let tr2 := Tree "c_app" [Tree "c_app" [ident "f"; ident "a"]; one] in
  let v1 := app (var "f") (app (var "a") (times top top)) in
  let v2 := app (app (var "f") (var "a")) (times top top) in
  Lark.derive_all (Parser.productions st4) s = inr [tr1; tr2]
  /\ Transformer.transform (Parser.constructors st4) tr1
     = inr (Transformer.Built v1)
  /\ Transformer.transform (Parser.constructors st4) tr2
     = inr (Transformer.Built v2)
  /\ remove_whitespace (Printer.str order4 v2) = "fa(1*1)"
  /\ FilterSpec.passes order4 s v2
  /\ reducible_to (remove_whitespace s) (remove_whitespace (Printer.str order4 v1))
     = inl Py.IndexError
  /\ parse4 s = inl Py.IndexError
  /\ (forall v, parse4 s <> inr v)
  /\ parse4 s <> inl (Py.ValueError (Py.NoParseFor s))
  /\ (forall l, parse4 s <> inl (Py.ValueError (Py.AmbiguousParseFor s l))).
Proof.
  cbv zeta.
  assert (H : parse4 "f(a)(1*1)" = inl Py.IndexError) by (vm_compute; reflexivity).
  do 7 (split; [vm_compute; reflexivity|]).
  rewrite H. split; [|split]; intros; discriminate.
Qed.

(** C9: the renderings of Example 1, printed in the mode [pretty] as the
    source tests do, and the rejection of [1 -> 1 + 1]. *)
Theorem example1_renderings :
  Printer.to_str order1 pretty "bot" "bot" (times top (times top top))
    = "1 * 1 * 1"
  /\ Printer.to_str order1 pretty "bot" "bot" (times (times top top) top)
    = "(1 * 1) * 1"
  /\ Printer.to_str order1 pretty "bot" "bot" (plus (times top top) top)
    = "1 * 1 + 1"
  /\ Printer.to_str order1 pretty "bot" "bot" (pow top (plus top top))
    = "1 -> (1 + 1)"
  /\ parse1 "1 -> 1 + 1" = inl (Py.ValueError (Py.NoParseFor "1 -> 1 + 1")).
Proof. repeat split; vm_compute; reflexivity. Qed.

End ParserFacts.

(** ** Equality up to renaming *)

Module EqFacts.

Import Binding Examples Session EqSpec Samples.

Lemma identity_on_insert renaming x :
  identity_on renaming -> identity_on (<[x := x]> renaming).
Proof.
  intros H a b. destruct (decide (x = a)) as [->|Hne].
  - rewrite lookup_insert_eq. congruence.
  - rewrite lookup_insert_ne by assumption. apply H.
Qed.

Lemma eq_identity t :
  forall renaming, identity_on renaming -> eq t t renaming = inr true.
Proof.
  induction t as [x|x e IH|c args IH] using term_ind'; intros renaming Hid.
  - simpl. destruct (renaming !! x) as [y|] eqn:E; simpl.
    + apply Hid in E. subst y. rewrite bool_decide_eq_true_2; reflexivity.
    + rewrite bool_decide_eq_true_2; reflexivity.
  - simpl. apply IH, identity_on_insert, Hid.
  - simpl. rewrite String.eqb_refl.
    induction IH as [|a r Ha _ IHr]; [reflexivity|].
    rewrite (Ha _ Hid). simpl. exact IHr.
Qed.

(** Every term is equal to itself. *)
Lemma alpha_eq_refl t : alpha_eq t t = inr true.
Proof. apply eq_identity. intros x y H. rewrite lookup_empty in H. discriminate. Qed.

(** C6: the equality of the code is neither symmetric nor transitive.
    [forall x. y] compares equal to [forall y. y], since the free [y] on
    the left is not in the renaming and is compared with the bound [y] on
    the right by name; the converse comparison answers [False].  Both
    terms are results of [parse]. *)
Theorem alpha_eq_asymmetric :
  let s := Mix Forall [F x_ (V y_)] in
  let t := Mix Forall [F y_ (V y_)] in
  let u := Mix Forall [F z_ (V z_)] in
  parse2 "forall x. y" = inr s
  /\ parse2 "forall y. y" = inr t
  /\ parse2 "forall z. z" = inr u
  /\ alpha_eq s t = inr true
  /\ alpha_eq t s = inr false
  /\ alpha_eq t u = inr true
  /\ alpha_eq s u = inr false.
Proof. cbv zeta. repeat split; vm_compute; reflexivity. Qed.

(** C7, as stated, fails: comparing two mixfix terms of different classes
    returns [False] and raises nothing. *)
Lemma eq_mismatch_returns :
  alpha_eq (plus top top) (times top top) = inr false
  /\ ~ (forall s t, kind_of s <> kind_of t -> Py.returns (alpha_eq s t) = false).
Proof.
  split; [vm_compute; reflexivity|].
  intros H. specialize (H (plus top top) (times top top)).
  assert (Hk : kind_of (plus top top) <> kind_of (times top top))
    by (simpl; discriminate).
  specialize (H Hk). vm_compute in H. discriminate H.
Qed.

(** C7, amended: a binder or a mixfix node compared with a term of
    another kind is unequal to it, and the comparison does not raise. *)
Theorem eq_mismatch_false self other renaming :
  kind_of self <> KV ->
  kind_of self <> kind_of other ->
  eq self other renaming = inr false.
Proof.
  destruct self as [x|x e|c args]; simpl; intros HV Hk; [congruence| |].
  - destruct other; simpl in *; first [reflexivity | congruence].
  - destruct other as [y|y e'|c' args']; simpl in *; try reflexivity.
    destruct (String.eqb (cname c) (cname c')) eqn:E; [|reflexivity].
    apply String.eqb_eq in E. congruence.
Qed.

Lemma eq_mismatch_false_witness :
  eq (plus top top) (times top top) ∅ = inr false.
Proof.
  apply eq_mismatch_false; simpl; discriminate.
Defined.

End EqFacts.

(** ** The display name chosen for a binder *)

Module PickFacts.

Import Simplify.

Lemma first_free_spec x (U : gset Name) steps : forall n,
  let r := first_free x U steps n in
  n <= r <= n + steps
  /\ (forall j, n <= j < r -> NameOps.with_n x (Some j) ∈ U)
  /\ (r < n + steps -> NameOps.with_n x (Some r) ∉ U).
Proof.
  induction steps as [|k IH]; intros n; simpl.
  - repeat split; try lia.
  - destruct (decide (NameOps.with_n x (Some n) ∈ U)) as [Hin|Hout].
    + destruct (IH (S n)) as (Hr & Hall & Hfree). repeat split; try lia.
      * intros j Hj. destruct (decide (j = n)) as [->|Hne]; [exact Hin|].
        apply Hall. lia.
      * intros Hlt. apply Hfree. lia.
    + repeat split; try lia. intros _. exact Hout.
Qed.

(** A finite set cannot hold the undisambiguated name and all of the first
    [size U] disambiguated ones. *)
Lemma candidates_bound x (U : gset Name) m :
  NameOps.with_n x None ∈ U ->
  (forall j, j < m -> NameOps.with_n x (Some j) ∈ U) ->
  m < size U.
Proof.
  intros H0 Hall.
  set (l := NameOps.with_n x None
            :: ((fun j => NameOps.with_n x (Some j)) <$> seq 0 m)).
  assert (Hnd : NoDup l).
  { apply NoDup_cons. split.
    - intros Hin. apply list_elem_of_fmap in Hin as (j & Hj & _). discriminate Hj.
    - apply NoDup_fmap_2; [|apply NoDup_seq].
      intros i j Hij. injection Hij. auto. }
  assert (Hsub : (list_to_set l : gset Name) ⊆ U).
  { intros a Ha. apply elem_of_list_to_set in Ha.
    apply elem_of_cons in Ha as [->|Ha]; [exact H0|].
    apply list_elem_of_fmap in Ha as (j & -> & Hj).
    apply Hall. apply elem_of_seq in Hj. lia. }
  apply subseteq_size in Hsub.
  rewrite size_list_to_set in Hsub by exact Hnd.
  unfold l in Hsub. simpl in Hsub. rewrite length_fmap, length_seq in Hsub. lia.
Qed.

(** The display name chosen for a binder is not in use. *)
Lemma pick_not_in_use x (U : gset Name) : pick x U ∉ U.
Proof.
  unfold pick. destruct (decide (NameOps.with_n x None ∈ U)) as [H0|H0];
    [|exact H0].
  destruct (first_free_spec x U (size U) 0) as (Hr & Hall & Hfree).
  apply Hfree.
  apply (candidates_bound x U _ H0). intros j Hj. apply Hall. lia.
Qed.

(** It is the first one not in use, in the order none, 0, 1, 2, ... *)
Lemma pick_least x (U : gset Name) k :
  pick x U = NameOps.with_n x (Some k) ->
  NameOps.with_n x None ∈ U
  /\ forall j, j < k -> NameOps.with_n x (Some j) ∈ U.
Proof.
  unfold pick. destruct (decide (NameOps.with_n x None ∈ U)) as [H0|H0];
    [|discriminate].
  intros [= <-]. split; [exact H0|].
  destruct (first_free_spec x U (size U) 0) as (_ & Hall & _).
  intros j Hj. apply Hall. lia.
Qed.

End PickFacts.

(** ** Display-name simplification *)

Module SimplifyFacts.

Import Binding Simplify Examples Samples.

(** The closed example of the source: no free names, and the simplified
    names print without disambiguators. *)
Lemma closed_example_simple_names :
  fvs closed_example = ∅
  /\ Printer.to_str order2 pretty "bot" "bot" closed_example
     = "∀ x@0. ∃ y@1. x@0 = y@1"
  /\ Printer.to_str order2 pretty "bot" "bot" (simple_names closed_example)
     = "∀ x. ∃ y. x = y".
Proof.
  split; [|split]; [|vm_compute; reflexivity..].
  eapply (bool_decide_eq_true_1 _). vm_compute. reflexivity.
Qed.

(** C8: the binder [y@1] of the second argument has no free name and no
    enclosing binder, so the smallest disambiguator that avoids its reserved
    names is none and it should print as [y]; the code prints [y@0],
    because the free name [y] of the first argument was added in place to
    the set shared by both arguments. *)
Theorem simple_names_sibling_leak :
  siblings = app (Mix Lam [F (MkName "a" (Some 0)) (V (MkName "y" None))])
                 (Mix Lam [F (MkName "y" (Some 1)) (V (MkName "y" (Some 1)))])
  /\ fvs (F (MkName "y" (Some 1)) (V (MkName "y" (Some 1)))) = ∅
  /\ Printer.to_str order4 pretty "bot" "bot" (simple_names siblings)
     = "(λa. y) (λy@0. y@0)"
  /\ Printer.to_str order4 pretty "bot" "bot" (simple_names_spec siblings)
     = "(λa. y) (λy. y)".
Proof.
  split; [reflexivity|]. split; [|split; vm_compute; reflexivity].
  eapply (bool_decide_eq_true_1 _). vm_compute. reflexivity.
Qed.

End SimplifyFacts.

(** ** Substitution *)

Module SubstFacts.

Import Binding SubstSpec.

Lemma below_mono g g' a : g <= g' -> below g a -> below g' a.
Proof. unfold below. destruct (name_n a); [lia|trivial]. Qed.

Lemma fvs_Mix c args : fvs (Mix c args) = fvs_list args.
Proof. reflexivity. Qed.

Lemma subst_Mix c args substitution g :
  subst (Mix c args) substitution g
  = let (args', g') := subst_list substitution args g in (Mix c args', g').
Proof. reflexivity. Qed.

Lemma subst_F x e substitution g :
  subst (F x e) substitution g
  = let x' := MkName (name_x x) (Some g) in
    let (e', g2) := subst e (<[x := V x']> substitution) (S g) in
    (F x' e', g2).
Proof. reflexivity. Qed.

(** The counter never goes back. *)
Lemma subst_counter_mono t :
  forall substitution g, g <= snd (subst t substitution g).
Proof.
  induction t as [x|x e IH|c args IH] using term_ind'; intros substitution g.
  - simpl. destruct (substitution !! x); simpl; lia.
  - rewrite subst_F. cbv zeta.
    specialize (IH (<[x := V (MkName (name_x x) (Some g))]> substitution) (S g)).
    destruct (subst e _ (S g)) as [e' g2]. simpl in *. lia.
  - rewrite subst_Mix.
    assert (H : g <= snd (subst_list substitution args g)).
    { revert g. induction IH as [|a r Ha _ IHr]; intros g; simpl; [lia|].
      specialize (Ha substitution g).
      destruct (subst a substitution g) as [a' g1].
      specialize (IHr g1).
      destruct (subst_list substitution r g1) as [r' g2]. simpl in *. lia. }
    destruct (subst_list substitution args g). exact H.
Qed.

Lemma issued_mono t substitution g g' :
  g <= g' -> issued t substitution g -> issued t substitution g'.
Proof.
  intros Hg [H1 H2]. split.
  - intros a Ha Hn. eapply below_mono; eauto.
  - intros y u Hy a Ha. eapply below_mono; eauto.
Qed.

Lemma below_fresh_irrefl x g : ~ below g (MkName x (Some g)).
Proof. unfold below. simpl. lia. Qed.

Lemma image_insert_ne substitution x u y :
  x <> y -> image (<[x := u]> substitution) y = image substitution y.
Proof. intros H. unfold image. rewrite lookup_insert_ne by assumption. reflexivity. Qed.

Lemma image_insert_eq substitution x u :
  image (<[x := u]> substitution) x = fvs u.
Proof. unfold image. rewrite lookup_insert_eq. reflexivity. Qed.

(** A name issued before is not in the image of a name unless it was put
    there: the fresh name of a binder is in no image. *)
Lemma fresh_not_in_image t substitution g y x :
  issued t substitution g -> y ∈ fvs t ->
  MkName x (Some g) ∉ image substitution y.
Proof.
  intros [H1 H2] Hy Hin. unfold image in Hin.
  destruct (substitution !! y) as [u|] eqn:E.
  - eapply below_fresh_irrefl, H2; eauto.
  - apply elem_of_singleton in Hin. subst y.
    eapply below_fresh_irrefl, H1; eauto.
Qed.

Lemma subst_no_capture t :
  forall substitution g, issued t substitution g -> no_capture t substitution g.
Proof.
  induction t as [x|x e IH|c args IH] using term_ind';
    intros substitution g Hiss a.
  - simpl. change (fvs (V x)) with ({[ x ]} : gset Name).
    assert (Hr : fvs (fst (match substitution !! x with
                           | Some u => (u, g) | None => (V x, g) end))
                 = image substitution x).
    { unfold image. destruct (substitution !! x); reflexivity. }
    rewrite Hr. split.
    + intros Ha. exists x. split; [apply elem_of_singleton; reflexivity|exact Ha].
    + intros (y & Hy & Ha). apply elem_of_singleton in Hy. subst y. exact Ha.
  - rewrite subst_F. cbv zeta.
    set (x' := MkName (name_x x) (Some g)).
    assert (Hiss' : issued e (<[x := V x']> substitution) (S g)).
    { destruct Hiss as [H1 H2]. split.
      - intros b Hb Hn. destruct (decide (x = b)) as [->|Hne].
        + rewrite lookup_insert_eq in Hn. discriminate.
        + rewrite lookup_insert_ne in Hn by assumption.
          apply below_mono with g; [lia|]. apply H1; [|assumption].
          simpl. apply elem_of_difference. split; [assumption|].
          rewrite elem_of_singleton. congruence.
      - intros y u Hy b Hb. destruct (decide (x = y)) as [->|Hne].
        + rewrite lookup_insert_eq in Hy. injection Hy as <-.
          simpl in Hb. apply elem_of_singleton in Hb. subst b.
          unfold below, x'. simpl. lia.
        + rewrite lookup_insert_ne in Hy by assumption.
          apply below_mono with g; [lia|]. eapply H2; eauto. }
    specialize (IH _ _ Hiss' a).
    destruct (subst e (<[x := V x']> substitution) (S g)) as [e' g2].
    simpl in IH |- *. rewrite elem_of_difference, elem_of_singleton, IH.
    split.
    + intros [(y & Hy & Ha) Hne]. exists y.
      destruct (decide (x = y)) as [->|Hxy].
      * rewrite image_insert_eq in Ha. simpl in Ha.
        apply elem_of_singleton in Ha. contradiction.
      * rewrite image_insert_ne in Ha by assumption.
        split; [|exact Ha]. apply elem_of_difference.
        split; [assumption|]. rewrite elem_of_singleton. congruence.
    + intros (y & Hy & Ha). simpl in Hy.
      apply elem_of_difference in Hy as [Hy Hxy].
      rewrite elem_of_singleton in Hxy. split.
      * exists y. split; [assumption|].
        rewrite image_insert_ne by congruence. exact Ha.
      * intros ->. eapply (fresh_not_in_image (F x e)); [exact Hiss| |exact Ha].
        simpl. apply elem_of_difference. split; [assumption|].
        rewrite elem_of_singleton. assumption.
  - rewrite subst_Mix, fvs_Mix.
    assert (H : forall g, issued (Mix c args) substitution g ->
              forall a, a ∈ fvs_list (fst (subst_list substitution args g))
                        <-> exists y, y ∈ fvs_list args /\ a ∈ image substitution y).
    { clear g Hiss a. induction IH as [|t r Ht _ IHr]; intros g Hiss a.
      - simpl. split; [intros H; apply elem_of_empty in H; contradiction|].
        intros (y & Hy & _). apply elem_of_empty in Hy. contradiction.
      - assert (Ht' : issued t substitution g).
        { destruct Hiss as [H1 H2]. split; [|exact H2].
          intros b Hb. apply H1. rewrite fvs_Mix. simpl.
          apply elem_of_union. left. exact Hb. }
        assert (Hg := subst_counter_mono t substitution g).
        specialize (Ht _ _ Ht' a). simpl.
        destruct (subst t substitution g) as [t' g1]. simpl in Ht, Hg.
        assert (Hr' : issued (Mix c r) substitution g1).
        { apply issued_mono with g; [exact Hg|].
          destruct Hiss as [H1 H2]. split; [|exact H2].
          intros b Hb. apply H1. rewrite fvs_Mix in Hb |- *. simpl.
          apply elem_of_union. right. exact Hb. }
        specialize (IHr _ Hr' a).
        destruct (subst_list substitution r g1) as [r' g2]. simpl in IHr |- *.
        rewrite elem_of_union, Ht, IHr. split.
        + intros [(y & Hy & Ha)|(y & Hy & Ha)]; exists y;
            (split; [apply elem_of_union; auto|exact Ha]).
        + intros (y & Hy & Ha). apply elem_of_union in Hy as [Hy|Hy];
            [left|right]; exists y; auto. }
    specialize (H g Hiss a).
    destruct (subst_list substitution args g) as [args' g']. exact H.
Qed.

(** The free names of a term are among its names. *)
Lemma fvs_names t : fvs t ⊆ names t.
Proof.
  induction t as [x|x e IH|c args IH] using term_ind'.
  - reflexivity.
  - simpl. set_solver.
  - change (fvs (Mix c args)) with (fvs_list args).
    change (names (Mix c args)) with (names_list args).
    induction IH as [|a r Ha _ IHr]; simpl; set_solver.
Qed.

(** The invariant of the counter gives what the fresh names must differ
    from. *)
Lemma issued_of_below t substitution g :
  names_below g t -> range_below g substitution -> issued t substitution g.
Proof.
  intros Ht Hs. split.
  - intros a Ha _. apply Ht. apply fvs_names. exact Ha.
  - intros y u Hy a Ha. apply (Hs y u Hy). apply fvs_names. exact Ha.
Qed.

Lemma names_below_mono g g' t : g <= g' -> names_below g t -> names_below g' t.
Proof. intros Hg H a Ha. eapply below_mono; eauto. Qed.

Lemma range_below_mono g g' substitution :
  g <= g' -> range_below g substitution -> range_below g' substitution.
Proof. intros Hg H y u Hy. eapply names_below_mono; eauto. Qed.

(** X22: [subst] keeps the invariant of the counter: on a term and
    replacements whose disambiguators were issued before the counter reached
    its value, it returns a term whose disambiguators, those of the renamed
    binders included, were issued before the counter value it leaves. *)
Theorem subst_names_below t :
  forall substitution g,
    names_below g t -> range_below g substitution ->
    names_below (snd (subst t substitution g)) (fst (subst t substitution g)).
Proof.
  induction t as [x|x e IH|c args IH] using term_ind';
    intros substitution g Ht Hs.
  - simpl. destruct (substitution !! x) as [u|] eqn:E; simpl.
    + exact (Hs x u E).
    + exact Ht.
  - rewrite subst_F. cbv zeta.
    set (x' := MkName (name_x x) (Some g)).
    assert (He : names_below (S g) e).
    { intros a Ha. apply below_mono with g; [lia|]. apply Ht. simpl. set_solver. }
    assert (Hs' : range_below (S g) (<[x := V x']> substitution)).
    { intros y u Hy. destruct (decide (x = y)) as [->|Hne].
      - rewrite lookup_insert_eq in Hy. injection Hy as <-.
        intros a Ha. simpl in Ha. apply elem_of_singleton in Ha. subst a.
        unfold below, x'. simpl. lia.
      - rewrite lookup_insert_ne in Hy by assumption.
        apply names_below_mono with g; [lia|]. exact (Hs y u Hy). }
    specialize (IH _ _ He Hs').
    assert (Hg := subst_counter_mono e (<[x := V x']> substitution) (S g)).
    destruct (subst e (<[x := V x']> substitution) (S g)) as [e' g2].
    simpl in IH, Hg |- *. intros a Ha.
    apply elem_of_union in Ha as [Ha|Ha]; [|apply IH; exact Ha].
    apply elem_of_singleton in Ha. subst a. unfold below, x'. simpl. lia.
  - rewrite subst_Mix.
    assert (H : forall g, (forall a, a ∈ names_list args -> below g a) ->
                range_below g substitution ->
                forall a, a ∈ names_list (fst (subst_list substitution args g)) ->
                          below (snd (subst_list substitution args g)) a).
    { clear g Ht Hs. induction IH as [|t r Hrec _ IHr]; intros g Ht Hs a Ha.
      - simpl in Ha. apply elem_of_empty in Ha. contradiction.
      - assert (Ht' : names_below g t).
        { intros b Hb. apply Ht. simpl. set_solver. }
        specialize (Hrec substitution g Ht' Hs).
        assert (Hg := subst_counter_mono t substitution g).
        simpl in Ha |- *.
        destruct (subst t substitution g) as [t' g1]. simpl in Hrec, Hg.
        assert (Hr : forall b, b ∈ names_list r -> below g1 b).
        { intros b Hb. apply below_mono with g; [exact Hg|].
          apply Ht. simpl. set_solver. }
        specialize (IHr g1 Hr (range_below_mono _ _ _ Hg Hs) a).
        assert (Hg' : g1 <= snd (subst_list substitution r g1)).
        { clear. revert g1. induction r as [|b r IHr]; intros g1; simpl; [lia|].
          pose proof (subst_counter_mono b substitution g1) as Hb.
          destruct (subst b substitution g1) as [b' g2].
          specialize (IHr g2).
          destruct (subst_list substitution r g2) as [r' g3]. simpl in *. lia. }
        destruct (subst_list substitution r g1) as [r' g2].
        simpl in IHr, Ha, Hg' |- *.
        apply elem_of_union in Ha as [Ha|Ha]; [|apply IHr; exact Ha].
        apply below_mono with g1; [exact Hg'|]. apply Hrec. exact Ha. }
    specialize (H g Ht Hs).
    destruct (subst_list substitution args g) as [args' g']. exact H.
Qed.

Lemma subst_names_below_witness :
  names_below 1 (F (MkName "y" (Some 0)) (V (MkName "y" None))).
Proof.
  assert (Hs : subst (F (MkName "y" None) (V (MkName "x" None)))
                 {[ MkName "x" None := V (MkName "y" None) ]} 0
               = (F (MkName "y" (Some 0)) (V (MkName "y" None)), 1)).
  { rewrite subst_F. cbv zeta. simpl.
    rewrite lookup_insert_ne by discriminate.
    rewrite lookup_singleton_eq. reflexivity. }
  pose proof (subst_names_below (F (MkName "y" None) (V (MkName "x" None)))
                {[ MkName "x" None := V (MkName "y" None) ]} 0) as H.
  rewrite Hs in H. apply H.
  - intros a Ha. simpl in Ha.
    apply elem_of_union in Ha as [Ha|Ha]; apply elem_of_singleton in Ha;
      subst a; exact I.
  - intros y u Hy. apply lookup_singleton_Some in Hy as [<- <-].
    intros a Ha. simpl in Ha. apply elem_of_singleton in Ha. subst a. exact I.
Defined.

(** C5, as stated, fails: renaming the bound name to the name issued by the
    counter avoids capture only if that name is not in play already.  With
    the counter at [0], the substitution [{x: V(y@0)}] applied to the
    binder [y. x] renames the bound [y] to [y@0] and puts [y@0] in place of
    [x]: the free [y@0] of the replacement, whose tag is that of the binder,
    is bound in the result. *)
Lemma subst_captures_unissued :
  let y := MkName "y" None in
  let x := MkName "x" None in
  let y0 := MkName "y" (Some 0) in
  subst (F y (V x)) {[ x := V y0 ]} 0 = (F y0 (V y0), 1)
  /\ x ∈ fvs (F y (V x))
  /\ y0 ∈ fvs (V y0)
  /\ (y0 ∉ fvs (F y0 (V y0)))
  /\ ~ no_capture (F y (V x)) {[ x := V y0 ]} 0
  /\ ~ (forall x e substitution g y u f,
          y ∈ fvs (F x e) -> substitution !! y = Some u -> f ∈ fvs u ->
          f ∈ fvs (fst (subst (F x e) substitution g))).
Proof.
  intros y x y0.
  assert (Hs : subst (F y (V x)) {[ x := V y0 ]} 0 = (F y0 (V y0), 1)).
  { rewrite subst_F. cbv zeta. simpl.
    rewrite lookup_insert_ne by discriminate.
    rewrite lookup_singleton_eq. reflexivity. }
  assert (Hx : x ∈ fvs (F y (V x))).
  { simpl. apply elem_of_difference. split.
    - apply elem_of_singleton. reflexivity.
    - rewrite elem_of_singleton. discriminate. }
  assert (Hy0 : y0 ∈ fvs (V y0)) by (simpl; apply elem_of_singleton; reflexivity).
  assert (Hn : y0 ∉ fvs (F y0 (V y0))).
  { simpl. intros H. apply elem_of_difference in H as [_ H].
    apply H. apply elem_of_singleton. reflexivity. }
  split; [exact Hs|]. split; [exact Hx|]. split; [exact Hy0|].
  split; [exact Hn|]. split.
  - intros H. specialize (H y0). rewrite Hs in H. apply Hn. apply H.
    exists x. split; [exact Hx|]. unfold image.
    rewrite lookup_singleton_eq. exact Hy0.
  - intros H. apply Hn.
    specialize (H y (V x) {[ x := V y0 ]} 0 x (V y0) y0 Hx
                  (lookup_singleton_eq _ _) Hy0).
    rewrite Hs in H. exact H.
Qed.

(** C5, amended: substitution under a binder always renames the bound name
    to the name issued by the counter, whatever the substitution targets,
    and then descends into the body; provided the disambiguators of the
    free names that are kept and of the free names of the replacements were
    issued before the counter reached its value, every free name of a
    replacement put in place of a free name of the binder is free in the
    result, and the free names of the result are exactly those the
    substitution puts in place of the free names of the binder: no name is
    captured. *)
Theorem subst_binder_capture_avoiding x e substitution g :
  issued (F x e) substitution g ->
  let x' := MkName (name_x x) (Some g) in
  let body := subst e (<[x := V x']> substitution) (S g) in
  subst (F x e) substitution g = (F x' (fst body), snd body)
  /\ (forall y u f, y ∈ fvs (F x e) -> substitution !! y = Some u ->
                    f ∈ fvs u -> f ∈ fvs (F x' (fst body)))
  /\ no_capture (F x e) substitution g.
Proof.
  intros Hiss x' body.
  assert (Heq : subst (F x e) substitution g = (F x' (fst body), snd body)).
  { rewrite subst_F. cbv zeta. fold x'. fold body. destruct body; reflexivity. }
  pose proof (subst_no_capture (F x e) substitution g Hiss) as Hnc.
  split; [exact Heq|]. split; [|exact Hnc].
  intros y u f Hy Hu Hf.
  specialize (Hnc f). rewrite Heq in Hnc. simpl fst in Hnc.
  apply Hnc. exists y. split; [exact Hy|]. unfold image. rewrite Hu. exact Hf.
Qed.

(** The substitution [{x: V(y)}] applied to the binder [y. x]: the bound
    [y] becomes [y@0] and the [y] put in place of [x] stays free. *)
Lemma subst_binder_capture_avoiding_witness :
  let y := MkName "y" None in
  let x := MkName "x" None in
  subst (F y (V x)) {[ x := V y ]} 0
  = (F (MkName "y" (Some 0)) (V y), 1)
  /\ y ∈ fvs (F (MkName "y" (Some 0)) (V y)).
Proof.
  intros y x.
  assert (Hiss : issued (F y (V x)) {[ x := V y ]} 0).
  { split.
    - intros a Ha Hn. simpl in Ha. apply elem_of_difference in Ha as [Ha _].
      apply elem_of_singleton in Ha. subst a.
      rewrite lookup_singleton_eq in Hn. discriminate Hn.
    - intros b u Hb a Ha. apply lookup_singleton_Some in Hb as [<- <-].
      simpl in Ha. apply elem_of_singleton in Ha. subst a. exact I. }
  destruct (subst_binder_capture_avoiding y (V x) {[ x := V y ]} 0 Hiss)
    as (Heq & Hfree & _).
  split.
  - exact Heq.
  - apply (Hfree x (V y) y).
    + simpl. apply elem_of_difference. split.
      * apply elem_of_singleton. reflexivity.
      * rewrite elem_of_singleton. discriminate.
    + apply lookup_singleton_eq.
    + simpl. apply elem_of_singleton. reflexivity.
Defined.

End SubstFacts.

(** ** The printer *)

Module PrinterFacts.

Import Printer PrinterSpec.

Lemma precs_unfold c b :
  precs c b
  = let l := ((if b then "bot" else cname c), None, None)
               :: map (entry_of (cname c)) (annotations c) in
    if b then reset_last l else l.
Proof.
  unfold precs. cbv zeta.
  assert (H : map (fun kv : string * annotation =>
                     let (k, v) := kv in
                     (make_prec (cname c) k,
                      (if is_field v then Some k else None), Some v))
                  (annotations c)
              = map (entry_of (cname c)) (annotations c)).
  { apply map_ext. intros [k v]. reflexivity. }
  rewrite H. reflexivity.
Qed.

Lemma pair_up_cons (e0 e1 : prec_entry) l :
  pair_up (e0 :: e1 :: l)
  = (fst (fst e0), (snd (fst e1), snd e1), fst (fst e1)) :: pair_up (e1 :: l).
Proof. destruct e0 as [[? ?] ?], e1 as [[? ?] ?]. reflexivity. Qed.

Lemma reset_last_cons (e e' : prec_entry) l :
  reset_last (e :: e' :: l) = e :: reset_last (e' :: l).
Proof. destruct e as [[? ?] ?]. reflexivity. Qed.

Lemma map_entry_cons name kv anns :
  map (entry_of name) (kv :: anns) = entry_of name kv :: map (entry_of name) anns.
Proof. reflexivity. Qed.

(** Without a bracket: each item has the exit before it on its left. *)
Lemma pair_up_plain name anns : forall (e0 : prec_entry),
  pair_up (e0 :: map (entry_of name) anns)
  = imap (fun i (kv : string * annotation) =>
            (match i with
             | O => fst (fst e0)
             | S j => make_prec name (nth j (map fst anns) name)
             end,
             ((if is_field (snd kv) then Some (fst kv) else None), Some (snd kv)),
             make_prec name (fst kv)))
         anns.
Proof.
  induction anns as [|kv anns IH]; intros e0.
  - destruct e0 as [[? ?] ?]. reflexivity.
  - rewrite map_entry_cons, pair_up_cons, IH. simpl imap. f_equal.
    apply imap_ext. intros i kv' _. simpl. destruct i; reflexivity.
Qed.

(** With a bracket: the same, but the last item has bottom on its right. *)
Lemma pair_up_reset name anns : forall (e0 : prec_entry),
  pair_up (reset_last (e0 :: map (entry_of name) anns))
  = imap (fun i (kv : string * annotation) =>
            (match i with
             | O => fst (fst e0)
             | S j => make_prec name (nth j (map fst anns) name)
             end,
             ((if is_field (snd kv) then Some (fst kv) else None), Some (snd kv)),
             if Nat.eqb (S i) (length anns) then "bot" else make_prec name (fst kv)))
         anns.
Proof.
  induction anns as [|kv anns IH]; intros e0.
  - destruct e0 as [[? ?] ?]. reflexivity.
  - rewrite map_entry_cons, reset_last_cons.
    specialize (IH (entry_of name kv)).
    destruct anns as [|kv' anns].
    + destruct e0 as [[? ?] ?]. reflexivity.
    + rewrite map_entry_cons in *. rewrite reset_last_cons in *.
      rewrite pair_up_cons, IH. rewrite !imap_cons.
      do 2 (apply (f_equal2 cons); [reflexivity|]).
      apply imap_ext. intros i kv'' _. simpl. destruct i; reflexivity.
Qed.

Lemma nth_map_lookup (anns : list (string * annotation)) d : forall i kv,
  anns !! i = Some kv -> nth i (map fst anns) d = fst kv.
Proof.
  induction anns as [|a anns IH]; intros [|i] kv H; try discriminate.
  - injection H as <-. reflexivity.
  - simpl. apply IH. exact H.
Qed.

Lemma last_nth (l : list string) d : List.last l d = nth (length l - 1) l d.
Proof.
  induction l as [|a l IH]; [reflexivity|].
  destruct l as [|b l]; [reflexivity|].
  change (List.last (a :: b :: l) d) with (List.last (b :: l) d).
  rewrite IH. simpl. rewrite Nat.sub_0_r. reflexivity.
Qed.

Lemma right_prec_inner_spec c : right_prec_inner c = inner_right c.
Proof.
  unfold right_prec_inner, inner_right, exit_.
  rewrite last_nth, length_map. reflexivity.
Qed.

(** The items built by the code are the fields with the amended bounds. *)
Lemma items_amended c b : items c b = items_with (bounds_amended c b) c.
Proof.
  unfold items, items_with. rewrite precs_unfold. cbv zeta.
  destruct b.
  - rewrite pair_up_reset. apply imap_ext. intros i kv Hi.
    unfold bounds_amended, exit_, entry. simpl.
    rewrite (nth_map_lookup _ _ _ _ Hi). reflexivity.
  - rewrite pair_up_plain. apply imap_ext. intros i kv Hi.
    unfold bounds_amended, exit_, entry. simpl.
    rewrite (nth_map_lookup _ _ _ _ Hi). reflexivity.
Qed.

Lemma render_items_ext (f g : string -> string -> term -> string) mode args :
  Forall (fun a => forall l r, f l r a = g l r a) args ->
  forall its, render_items f mode args its = render_items g mode args its.
Proof.
  induction 1 as [|a args Ha _ IH]; intros its; simpl;
    destruct (next_field mode its) as [lits [[[l r] rest]|]]; try reflexivity.
  rewrite Ha, IH. reflexivity.
Qed.

(** C2, amended: the printer writes no bracket for a node exactly when
    [le(inLeft, entry)] and [le(inRight, exit of the last field)] both hold;
    each field is then rendered between the exit of the field before it (the
    entry for the first field) and its own exit; under a bracket the fields
    keep these bounds, except that the left bound of the first field and the
    right bound of the last field are bottom, and the concatenation is wrapped
    by the bracketer of the kind. *)
Theorem to_str_amended o mode t :
  forall left_prec right_prec,
    to_str o mode left_prec right_prec t
    = render bounds_amended o mode left_prec right_prec t.
Proof.
  induction t as [x|x e IH|c args IH] using term_ind'; intros l r.
  - reflexivity.
  - simpl. rewrite IH. reflexivity.
  - simpl. unfold bracketing. rewrite right_prec_inner_spec, items_amended.
    unfold entry.
    rewrite (render_items_ext (to_str o mode) (render bounds_amended o mode) mode args IH).
    reflexivity.
Qed.

Import Examples.

(** C2, as stated, fails: under a bracket the fields are not all rendered
    with both bounds at bottom.  In [Pow(Top, Times(Times(Top, Top), Top))]
    the bracketed product renders its left factor against [Times.p] and
    brackets it, where bottom bounds would leave it bare. *)
Lemma to_str_not_stated :
  to_str order1 pretty "bot" "bot" (pow top (times (times top top) top))
  = "1 -> ((1 * 1) * 1)"
  /\ render bounds_stated order1 pretty "bot" "bot"
            (pow top (times (times top top) top))
     = "1 -> (1 * 1 * 1)"
  /\ ~ (forall o mode l r t,
          to_str o mode l r t = render bounds_stated o mode l r t).
Proof.
  split; [vm_compute; reflexivity|]. split; [vm_compute; reflexivity|].
  intros H.
  specialize (H order1 pretty "bot" "bot" (pow top (times (times top top) top))).
  vm_compute in H. discriminate H.
Qed.

End PrinterFacts.

(** ** Parsing a rendering *)

Module RoundTrip.

Import Reduce FilterSpec.

Lemma tree_eqb_eq a : forall b, tree_eqb a b = true -> a = b.
Proof.
  induction a as [ty v|d l IH] using tree_ind'; intros [d' l'|ty' v'] H;
    simpl in H; try discriminate.
  - apply andb_prop in H as [H1 H2].
    apply String.eqb_eq in H1, H2. congruence.
  - apply andb_prop in H as [H1 H2]. apply String.eqb_eq in H1. subst d'.
    f_equal. revert l' H2.
    induction IH as [|x r Hx _ IHr]; intros [|x' r'] H2; try discriminate.
    + reflexivity.
    + apply andb_prop in H2 as [Hx' Hr']. f_equal; auto.
Qed.

Section Filter.

Variable order : Poset.t.
Variable st : Parser.state.
Variable s : string.

Local Abbreviation passes := (FilterSpec.passes order s).
Local Abbreviation seen_kept := (FilterSpec.seen_kept order st s).

(** The list built so far is only ever extended. *)
Lemma filter_trees_extends trees : forall seen acc l,
  Parser.filter_trees order st s trees seen acc = inr l ->
  exists l', l = acc ++ l'.
Proof.
  induction trees as [|tree rest IH]; intros seen acc l H; simpl in H.
  - injection H as <-. exists []. rewrite app_nil_r. reflexivity.
  - destruct (existsb (tree_eqb tree) seen); [eauto|].
    destruct (Transformer.transform _ tree) as [e|[v| |]];
      [eauto| |eauto|discriminate].
    destruct (reducible_to _ _) as [e|[|]]; simpl in H; try discriminate.
    + apply IH in H as [l' ->]. exists (v :: l').
      rewrite <- app_assoc. reflexivity.
    + eauto.
Qed.

(** Every term kept passes the check. *)
Lemma filter_trees_sound trees : forall seen acc l,
  Parser.filter_trees order st s trees seen acc = inr l ->
  forall v, In v l -> In v acc \/ passes v.
Proof.
  induction trees as [|tree rest IH]; intros seen acc l H v Hv; simpl in H.
  - injection H as <-. left. exact Hv.
  - destruct (existsb (tree_eqb tree) seen); [eauto|].
    destruct (Transformer.transform _ tree) as [e|[w| |]];
      [eauto| |eauto|discriminate].
    destruct (reducible_to _ _) as [e|[|]] eqn:E; simpl in H; try discriminate.
    + destruct (IH _ _ _ H v Hv) as [Hin|Hp]; [|right; exact Hp].
      apply in_app_or in Hin as [Hin|[<-|[]]]; [left; exact Hin|right; exact E].
    + eauto.
Qed.

(** Seeing a tree that builds no passing term keeps the invariant. *)
Lemma seen_kept_skip tree seen acc :
  (forall t, Transformer.transform (Parser.constructors st) tree
             = inr (Transformer.Built t) -> ~ passes t) ->
  seen_kept seen acc -> seen_kept (tree :: seen) acc.
Proof.
  intros Hno Hinv tr' t' Hs Ht' Hp'. simpl in Hs.
  apply orb_prop in Hs as [Hs|Hs].
  - apply tree_eqb_eq in Hs. subst tr'. destruct (Hno _ Ht' Hp').
  - eapply Hinv; eauto.
Qed.

Lemma filter_trees_complete trees : forall seen acc l,
  Parser.filter_trees order st s trees seen acc = inr l ->
  seen_kept seen acc ->
  forall tr t, In tr trees ->
               Transformer.transform (Parser.constructors st) tr
               = inr (Transformer.Built t) ->
               passes t -> In t l.
Proof.
  induction trees as [|tree rest IH]; intros seen acc l H Hinv tr t Hin Ht Hp;
    [destruct Hin|].
  simpl in H.
  destruct (existsb (tree_eqb tree) seen) eqn:Es.
  - destruct Hin as [<-|Hin]; [|eauto].
    apply filter_trees_extends in H as [l' ->].
    apply in_or_app. left. eapply Hinv; eauto.
  - destruct (Transformer.transform _ tree) as [e|[w| |]] eqn:Et;
      [| | |discriminate].
    + destruct Hin as [<-|Hin]; [congruence|].
      eapply IH; eauto. apply seen_kept_skip; [|exact Hinv].
      intros t' Ht'. congruence.
    + destruct (reducible_to _ _) as [e|[|]] eqn:E; simpl in H; try discriminate.
      * assert (Hinv' : seen_kept (tree :: seen) (acc ++ [w])).
        { intros tr' t' Hs Ht' Hp'. simpl in Hs. apply orb_prop in Hs as [Hs|Hs].
          - apply tree_eqb_eq in Hs. subst tr'.
            apply in_or_app. right. left. congruence.
          - apply in_or_app. left. eapply Hinv; eauto. }
        destruct Hin as [<-|Hin]; [|eapply IH; eauto].
        apply filter_trees_extends in H as [l' ->].
        apply in_or_app. left. apply in_or_app. right. left. congruence.
      * destruct Hin as [<-|Hin].
        { assert (w = t) by congruence. subst w.
          unfold FilterSpec.passes in Hp. congruence. }
        eapply IH; eauto. apply seen_kept_skip; [|exact Hinv].
        intros t' Ht' Hp'. assert (w = t') by congruence. subst w.
        unfold FilterSpec.passes in Hp'. congruence.
    + destruct Hin as [<-|Hin]; [congruence|].
      eapply IH; eauto. apply seen_kept_skip; [|exact Hinv].
      intros t' Ht'. congruence.
Qed.

End Filter.

Import Examples Session.

(** Two more renderings that are not read back.  A binder built by
    [F('x', ...)] holds a name with a disambiguator and renders as [x@0],
    which the grammar does not derive; and [App(x, y)], whose literal is
    empty, renders as [xy], which is read back as the one identifier
    [xy]. *)
Lemma round_trip_fails :
  let t := app (V (MkName "x" None)) (V (MkName "y" None)) in
  let u := Mix Forall [fst (Binding.binder "x" (fun x g => (x, g)) 0)] in
  wf t /\ wf u
  /\ Printer.str order4 u = "forall x@0.x@0"
  /\ parse4 (Printer.str order4 u) = inl Py.UnexpectedInput
  /\ Printer.str order4 t = "xy"
  /\ parse4 (Printer.str order4 t) = inr (V (MkName "xy" None))
  /\ Binding.alpha_eq t (V (MkName "xy" None)) = inr false
  /\ ~ (forall t, wf t ->
          exists v, parse4 (Printer.str order4 t) = inr v
                    /\ (Binding.alpha_eq t v = inr true
                        \/ Binding.alpha_eq v t = inr true)).
Proof.
  cbv zeta.
  split; [simpl; repeat split; discriminate|].
  split; [simpl; repeat split; discriminate|].
  do 5 (split; [vm_compute; reflexivity|]).
  intros H.
  destruct (H (app (V (MkName "x" None)) (V (MkName "y" None)))) as (v & Hv & He).
  - simpl. repeat split; discriminate.
  - vm_compute in Hv. injection Hv as <-. vm_compute in He.
    destruct He as [He|He]; discriminate He.
Qed.

(** C1: the rendering of a term is not always parsed back.  In Example 1
    the term [Pow(Times(Top, Plus(Top, Top)), Top)] has no name and no
    binder and renders as [1*(1+1)->1].  The engine derives the tree of the
    term itself, which passes the check, and the tree of
    [Times(Top, Pow(Plus(Top, Top), Top))], which renders as [1*(1+1->1)];
    on that candidate the check reads past the end of the input, and
    [parse] raises [IndexError] where the term was to be returned. *)
Theorem round_trip_index_error :
  let t := pow (times top (plus top top)) top in
  let u := times top (pow (plus top top) top) in
  let sum := Tree "c_plus" [Tree "c_top" []; Tree "c_top" []] in
  let tree_u := Tree "c_times" [Tree "c_top" []; Tree "c_pow" [sum; Tree "c_top" []]] in
  let tree_t := Tree "c_pow" [Tree "c_times" [Tree "c_top" []; sum]; Tree "c_top" []] in
  Printer.str order1 t = "1*(1+1)->1"
  /\ Lark.derive_all (Parser.productions st1) (Printer.str order1 t)
     = inr [tree_u; tree_t]
  /\ Transformer.transform (Parser.constructors st1) tree_t
     = inr (Transformer.Built t)
  /\ Transformer.transform (Parser.constructors st1) tree_u
     = inr (Transformer.Built u)
  /\ passes order1 (Printer.str order1 t) t
  /\ Printer.str order1 u = "1*(1+1->1)"
  /\ reducible_to "1*(1+1)->1" "1*(1+1->1)" = inl Py.IndexError
  /\ parse1 (Printer.str order1 t) = inl Py.IndexError
  /\ wf t
  /\ ~ (forall t, wf t ->
          exists v, parse1 (Printer.str order1 t) = inr v
                    /\ (Binding.alpha_eq t v = inr true
                        \/ Binding.alpha_eq v t = inr true)).
Proof.
  cbv zeta.
  assert (Hw : wf (pow (times top (plus top top)) top))
    by (simpl; repeat split; discriminate).
  do 8 (split; [vm_compute; reflexivity|]).
  split; [exact Hw|].
  intros H. destruct (H _ Hw) as (v & Hv & _).
  vm_compute in Hv. discriminate Hv.
Qed.

End RoundTrip.

(** * Further properties *)

(** ** Freshening *)

Module FreshFacts.

Import Binding BindingMore SubstSpec.

Lemma fresh_Mix c args renaming g :
  fresh (Mix c args) renaming g
  = let (args', g') := fresh_list renaming args g in (Mix c args', g').
Proof. reflexivity. Qed.

Lemma fresh_F x e renaming g :
  fresh (F x e) renaming g
  = let x' := MkName (name_x x) (Some g) in
    let (e', g2) := fresh e (<[x := x']> renaming) (S g) in
    (F x' e', g2).
Proof. reflexivity. Qed.

(** Freshening is the substitution of variables for names. *)
Lemma fresh_as_subst t :
  forall renaming g, fresh t renaming g = subst t (V <$> renaming) g.
Proof.
  induction t as [x|x e IH|c args IH] using term_ind'; intros renaming g.
  - simpl. rewrite lookup_fmap. destruct (renaming !! x); reflexivity.
  - rewrite fresh_F, SubstFacts.subst_F. cbv zeta.
    rewrite IH, fmap_insert. reflexivity.
  - rewrite fresh_Mix, SubstFacts.subst_Mix.
    assert (H : forall g, fresh_list renaming args g
                          = subst_list (V <$> renaming) args g).
    { induction IH as [|a r Ha _ IHr]; intros g'; simpl; [reflexivity|].
      rewrite Ha. destruct (subst a (V <$> renaming) g') as [a' g1].
      rewrite IHr. reflexivity. }
    rewrite H. reflexivity.
Qed.

(** The counter advances by one for every binder. *)
Lemma fresh_counter t :
  forall renaming g, snd (fresh t renaming g) = g + binders t.
Proof.
  induction t as [x|x e IH|c args IH] using term_ind'; intros renaming g.
  - simpl. destruct (renaming !! x); simpl; lia.
  - rewrite fresh_F. cbv zeta.
    specialize (IH (<[x := MkName (name_x x) (Some g)]> renaming) (S g)).
    destruct (fresh e _ (S g)) as [e' g2]. simpl in *. lia.
  - rewrite fresh_Mix.
    assert (H : forall g, snd (fresh_list renaming args g) = g + binders_list args).
    { induction IH as [|a r Ha _ IHr]; intros g'; simpl; [lia|].
      specialize (Ha renaming g').
      destruct (fresh a renaming g') as [a' g1].
      specialize (IHr g1).
      destruct (fresh_list renaming r g1) as [r' g2]. simpl in *. lia. }
    specialize (H g). destruct (fresh_list renaming args g). simpl in *.
    exact H.
Qed.

Lemma subst_counter t :
  forall substitution g, snd (subst t substitution g) = g + binders t.
Proof.
  induction t as [x|x e IH|c args IH] using term_ind'; intros substitution g.
  - simpl. destruct (substitution !! x); simpl; lia.
  - rewrite SubstFacts.subst_F. cbv zeta.
    specialize (IH (<[x := V (MkName (name_x x) (Some g))]> substitution) (S g)).
    destruct (subst e _ (S g)) as [e' g2]. simpl in *. lia.
  - rewrite SubstFacts.subst_Mix.
    assert (H : forall g, snd (subst_list substitution args g) = g + binders_list args).
    { induction IH as [|a r Ha _ IHr]; intros g'; simpl; [lia|].
      specialize (Ha substitution g').
      destruct (subst a substitution g') as [a' g1].
      specialize (IHr g1).
      destruct (subst_list substitution r g1) as [r' g2]. simpl in *. lia. }
    specialize (H g). destruct (subst_list substitution args g). simpl in *.
    exact H.
Qed.

Lemma bound_length t : length (bound t) = binders t.
Proof.
  induction t as [x|x e IH|c args IH] using term_ind'; simpl;
    [reflexivity|congruence|].
  induction IH as [|a r Ha _ IHr]; [reflexivity|].
  rewrite length_app, Ha, IHr. reflexivity.
Qed.

(** The bound names of a freshened term: the tags of the binders in order,
    with the consecutive counter values. *)
Lemma fresh_bound t :
  forall renaming g,
    bound (fst (fresh t renaming g))
    = zip_with (fun a k => MkName (name_x a) (Some k))
               (bound t) (seq g (binders t)).
Proof.
  induction t as [x|x e IH|c args IH] using term_ind'; intros renaming g.
  - simpl. destruct (renaming !! x); reflexivity.
  - rewrite fresh_F. cbv zeta.
    specialize (IH (<[x := MkName (name_x x) (Some g)]> renaming) (S g)).
    destruct (fresh e _ (S g)) as [e' g2]. simpl in *. rewrite IH. reflexivity.
  - rewrite fresh_Mix.
    assert (H : forall g, bound_list (fst (fresh_list renaming args g))
                = zip_with (fun a k => MkName (name_x a) (Some k))
                           (bound_list args) (seq g (binders_list args))).
    { induction IH as [|a r Ha _ IHr]; intros g'; simpl; [reflexivity|].
      specialize (Ha renaming g').
      pose proof (fresh_counter a renaming g') as Hc.
      destruct (fresh a renaming g') as [a' g1]. simpl in Ha, Hc. subst g1.
      specialize (IHr (g' + binders a)).
      destruct (fresh_list renaming r (g' + binders a)) as [r' g2].
      simpl in *. rewrite Ha, IHr.
      rewrite seq_app. rewrite zip_with_app; [reflexivity|].
      rewrite length_seq. apply bound_length. }
    specialize (H g). destruct (fresh_list renaming args g). exact H.
Qed.

Lemma zip_fresh_NoDup (l : list Name) : forall g n,
  length l = n ->
  NoDup (zip_with (fun a k => MkName (name_x a) (Some k)) l (seq g n)).
Proof.
  induction l as [|a l IH]; intros g n Hn; destruct n as [|n]; try discriminate;
    simpl; [constructor|].
  apply NoDup_cons. split; [|apply IH; simpl in Hn; lia].
  intros Hin. apply elem_of_lookup_zip_with in Hin as (i & b & k & Heq & _ & Hk).
  apply lookup_seq in Hk as [-> _]. injection Heq. lia.
Qed.

(** X1: the binders of [t.fresh(renaming)] keep their tags and carry the
    consecutive values of the counter, outermost first and from left to
    right; so they are pairwise distinct, and the counter has advanced by the
    number of binders. *)
Theorem fresh_binders_distinct t renaming g :
  bound (fst (fresh t renaming g))
  = zip_with (fun a k => MkName (name_x a) (Some k)) (bound t) (seq g (binders t))
  /\ NoDup (bound (fst (fresh t renaming g)))
  /\ snd (fresh t renaming g) = g + binders t.
Proof.
  split; [apply fresh_bound|]. split; [|apply fresh_counter].
  rewrite fresh_bound. apply zip_fresh_NoDup, bound_length.
Qed.

(** The comparison of a term with a freshened copy, under the renaming the
    copy was made with. *)
Lemma eq_fresh t :
  forall renaming g, eq t (fst (fresh t renaming g)) renaming = inr true.
Proof.
  induction t as [x|x e IH|c args IH] using term_ind'; intros renaming g.
  - simpl. destruct (renaming !! x) as [y|] eqn:E; simpl; rewrite ?E; simpl;
      rewrite bool_decide_eq_true_2; reflexivity.
  - rewrite fresh_F. cbv zeta.
    specialize (IH (<[x := MkName (name_x x) (Some g)]> renaming) (S g)).
    destruct (fresh e _ (S g)) as [e' g2]. simpl in *. exact IH.
  - rewrite fresh_Mix.
    assert (H : forall g,
      (fix all (l l' : list term) {struct l} : Py.result bool :=
         match l with
         | [] => Py.ret true
         | a :: r =>
             match l' with
             | [] => Py.raise Py.AttributeError
             | a' :: r' =>
                 b <-! eq a a' renaming; if b then all r r' else Py.ret false
             end
         end) args (fst (fresh_list renaming args g)) = inr true).
    { induction IH as [|a r Ha _ IHr]; intros g'; simpl; [reflexivity|].
      specialize (Ha renaming g').
      destruct (fresh a renaming g') as [a' g1].
      specialize (IHr g1).
      destruct (fresh_list renaming r g1) as [r' g2]. simpl in *.
      rewrite Ha. simpl. exact IHr. }
    specialize (H g). destruct (fresh_list renaming args g) as [args' g'].
    simpl. rewrite String.eqb_refl. exact H.
Qed.

(** X2: a term is equal, by [__eq__], to its freshened copy. *)
Theorem alpha_eq_fresh t g : alpha_eq t (fst (fresh t ∅ g)) = inr true.
Proof. apply eq_fresh. Qed.

(** X3: pattern matching on a binder twice gives two different bound names
    with the tag of the binder. *)
Theorem unwrap_twice_distinct x e g :
  let r1 := unwrap x e g in
  let r2 := unwrap x e (snd r1) in
  fst (fst r1) <> fst (fst r2)
  /\ name_x (fst (fst r1)) = name_x x
  /\ name_x (fst (fst r2)) = name_x x.
Proof.
  cbv zeta. unfold unwrap. rewrite fresh_F. cbv zeta.
  pose proof (fresh_counter e (<[x := MkName (name_x x) (Some g)]> ∅) (S g)) as Hc.
  destruct (fresh e _ (S g)) as [e1 g1]. simpl in Hc. simpl snd.
  rewrite fresh_F. cbv zeta.
  destruct (fresh e _ (S g1)) as [e2 g2]. simpl.
  repeat split; try reflexivity.
  intros H. injection H. lia.
Qed.

End FreshFacts.

(** ** The display-name simplification keeps the meaning *)

Module SimplifyMoreFacts.

Import Binding Simplify SimplifyMore SubstSpec.

Lemma go_Mix c args renaming in_use :
  go (Mix c args) renaming in_use
  = let (args', u) := go_list renaming args in_use in (Mix c args', u).
Proof. reflexivity. Qed.

Lemma go_F x e renaming in_use :
  go (F x e) renaming in_use
  = let in_use1 := in_use ∪ fvs (F x e) in
    let x' := pick x in_use1 in
    (F x' (fst (go e (<[x := x']> renaming) (in_use1 ∪ {[ x' ]}))), in_use1).
Proof.
  simpl. destruct (go e _ _). reflexivity.
Qed.

(** The set of names in use only grows. *)
Lemma go_in_use_grows t :
  forall renaming in_use, in_use ⊆ snd (go t renaming in_use).
Proof.
  induction t as [x|x e IH|c args IH] using term_ind'; intros renaming U.
  - simpl. destruct (renaming !! x); reflexivity.
  - rewrite go_F. cbv zeta. simpl. set_solver.
  - rewrite go_Mix.
    assert (H : forall U, U ⊆ snd (go_list renaming args U)).
    { induction IH as [|a r Ha _ IHr]; intros U'; simpl; [reflexivity|].
      specialize (Ha renaming U').
      destruct (go a renaming U') as [a' u1].
      specialize (IHr u1).
      destruct (go_list renaming r u1) as [r' u2]. simpl in *. set_solver. }
    specialize (H U). destruct (go_list renaming args U). exact H.
Qed.

Lemma eq_go t :
  forall renaming in_use, eq t (fst (go t renaming in_use)) renaming = inr true.
Proof.
  induction t as [x|x e IH|c args IH] using term_ind'; intros renaming U.
  - simpl. destruct (renaming !! x) as [y|] eqn:E; simpl; rewrite ?E; simpl;
      rewrite bool_decide_eq_true_2; reflexivity.
  - rewrite go_F. cbv zeta. simpl. apply IH.
  - rewrite go_Mix.
    assert (H : forall U,
      (fix all (l l' : list term) {struct l} : Py.result bool :=
         match l with
         | [] => Py.ret true
         | a :: r =>
             match l' with
             | [] => Py.raise Py.AttributeError
             | a' :: r' =>
                 b <-! eq a a' renaming; if b then all r r' else Py.ret false
             end
         end) args (fst (go_list renaming args U)) = inr true).
    { induction IH as [|a r Ha _ IHr]; intros U'; simpl; [reflexivity|].
      specialize (Ha renaming U').
      destruct (go a renaming U') as [a' u1].
      specialize (IHr u1).
      destruct (go_list renaming r u1) as [r' u2]. simpl in *.
      rewrite Ha. simpl. exact IHr. }
    specialize (H U). destruct (go_list renaming args U) as [args' u].
    simpl. rewrite String.eqb_refl. exact H.
Qed.

Lemma renamed_insert_ne renaming x x' y :
  x <> y -> renamed (<[x := x']> renaming) y = renamed renaming y.
Proof. intros H. unfold renamed. rewrite lookup_insert_ne by assumption. reflexivity. Qed.

Lemma renamed_insert_eq renaming x x' :
  renamed (<[x := x']> renaming) x = x'.
Proof. unfold renamed. rewrite lookup_insert_eq. reflexivity. Qed.

Lemma fvs_go t :
  forall renaming in_use,
    range_in_use renaming in_use ->
    forall a, a ∈ fvs (fst (go t renaming in_use))
              <-> exists y, y ∈ fvs t /\ a = renamed renaming y.
Proof.
  induction t as [x|x e IH|c args IH] using term_ind'; intros renaming U Hr a.
  - assert (Hv : fst (go (V x) renaming U) = V (renamed renaming x)).
    { simpl. unfold renamed. destruct (renaming !! x); reflexivity. }
    rewrite Hv. simpl. rewrite elem_of_singleton. split.
    + intros ->. exists x. split; [apply elem_of_singleton; reflexivity|reflexivity].
    + intros (y & Hy & ->). apply elem_of_singleton in Hy. subst y. reflexivity.
  - rewrite go_F. cbv zeta.
    set (U1 := U ∪ fvs (F x e)). set (x' := pick x U1).
    assert (Hx' : x' ∉ U1) by apply PickFacts.pick_not_in_use.
    assert (Hr' : range_in_use (<[x := x']> renaming) (U1 ∪ {[ x' ]})).
    { intros y z Hy. destruct (decide (x = y)) as [->|Hne].
      - rewrite lookup_insert_eq in Hy. injection Hy as <-. set_solver.
      - rewrite lookup_insert_ne in Hy by assumption.
        apply Hr in Hy. unfold U1. set_solver. }
    specialize (IH _ _ Hr' a). simpl fst. simpl fvs at 1.
    rewrite elem_of_difference, elem_of_singleton, IH. split.
    + intros [(y & Hy & Ha) Hne]. exists y.
      destruct (decide (x = y)) as [->|Hxy].
      * rewrite renamed_insert_eq in Ha. contradiction.
      * rewrite renamed_insert_ne in Ha by assumption.
        split; [|exact Ha]. simpl. set_solver.
    + intros (y & Hy & Ha). simpl in Hy.
      apply elem_of_difference in Hy as [Hy Hxy].
      rewrite elem_of_singleton in Hxy. split.
      * exists y. split; [assumption|].
        rewrite renamed_insert_ne by congruence. exact Ha.
      * intros Heq. apply Hx'. rewrite <- Heq, Ha. unfold renamed.
        destruct (renaming !! y) as [z|] eqn:E; simpl.
        -- apply Hr in E. unfold U1. set_solver.
        -- unfold U1. simpl. set_solver.
  - rewrite go_Mix, SubstFacts.fvs_Mix.
    assert (H : forall U, range_in_use renaming U ->
              forall a, a ∈ fvs_list (fst (go_list renaming args U))
                        <-> exists y, y ∈ fvs_list args /\ a = renamed renaming y).
    { clear U Hr a. induction IH as [|t r Ht _ IHr]; intros U Hr a.
      - simpl. split; [intros H; apply elem_of_empty in H; contradiction|].
        intros (y & Hy & _). apply elem_of_empty in Hy. contradiction.
      - specialize (Ht _ _ Hr a). simpl.
        pose proof (go_in_use_grows t renaming U) as Hg.
        destruct (go t renaming U) as [t' u1]. simpl in Ht, Hg.
        assert (Hr1 : range_in_use renaming u1).
        { intros y z Hy. apply Hg. eapply Hr. exact Hy. }
        specialize (IHr _ Hr1 a).
        destruct (go_list renaming r u1) as [r' u2]. simpl in IHr |- *.
        rewrite elem_of_union, Ht, IHr. split.
        + intros [(y & Hy & Ha)|(y & Hy & Ha)]; exists y;
            (split; [apply elem_of_union; auto|exact Ha]).
        + intros (y & Hy & Ha). apply elem_of_union in Hy as [Hy|Hy];
            [left|right]; exists y; auto. }
    specialize (H U Hr a).
    destruct (go_list renaming args U) as [args' u]. exact H.
Qed.

(** X4: the simplified term is equal, by [__eq__], to the term it was made
    from. *)
Theorem alpha_eq_simple_names t : alpha_eq t (simple_names t) = inr true.
Proof. apply eq_go. Qed.

(** X5: simplifying the display names changes no free name. *)
Theorem simple_names_fvs t : fvs (simple_names t) = fvs t.
Proof.
  apply set_eq. intros a. unfold simple_names.
  rewrite (fvs_go t ∅ (values ∅)).
  - split.
    + intros (y & Hy & ->). unfold renamed. rewrite lookup_empty. exact Hy.
    + intros Ha. exists a. split; [exact Ha|].
      unfold renamed. rewrite lookup_empty. reflexivity.
  - intros y z Hy. rewrite lookup_empty in Hy. discriminate.
Qed.

End SimplifyMoreFacts.

(** ** More on the canonical-reduction check *)

Module ReduceMoreFacts.

Import Reduce.

(** X6: the check answers [True], and raises nothing, whenever the second
    string is the first one with some parentheses removed. *)
Theorem reducible_to_accepts s t :
  drops_parens s t -> reducible_to s t = inr true.
Proof. apply ReduceFacts.reducible_to_complete. Qed.

Lemma reducible_to_accepts_witness :
  reducible_to "((1+1))+(1)" "(1+1)+1" = inr true.
Proof.
  apply reducible_to_accepts.
  apply dp_keep, dp_drop; [reflexivity|].
  do 3 apply dp_keep. apply dp_drop; [reflexivity|].
  do 2 apply dp_keep. apply dp_drop; [reflexivity|].
  apply dp_keep. apply dp_drop; [reflexivity|]. constructor.
Defined.

(** X7: when the check answers [True], the second string is what is left of
    a prefix of the first one once parentheses are removed. *)
Theorem reducible_to_true_prefix s t :
  reducible_to s t = inr true ->
  exists s1 s2, s = (s1 ++ s2)%string /\ drops_parens s1 t.
Proof. apply ReduceFacts.reducible_to_sound. Qed.

Lemma reducible_to_true_prefix_witness :
  exists s1 s2, "(a)" = (s1 ++ s2)%string /\ drops_parens s1 "a".
Proof. apply reducible_to_true_prefix. reflexivity. Defined.

Lemma all_chars_app p s t :
  all_chars p (s ++ t) = all_chars p s && all_chars p t.
Proof.
  induction s as [|c s IH]; [reflexivity|].
  change (String c s ++ t)%string with (String c (s ++ t)).
  simpl. rewrite IH, andb_assoc. reflexivity.
Qed.

Lemma mem_char_app_l c s t : mem_char c s = true -> mem_char c (s ++ t) = true.
Proof.
  induction s as [|d s IH]; [discriminate|].
  change (String d s ++ t)%string with (String d (s ++ t)). simpl.
  destruct (Ascii.eqb c d); [reflexivity|exact IH].
Qed.

Lemma all_chars_self s t :
  all_chars (fun c => mem_char c (s ++ t) || in_parens c) s = true.
Proof.
  assert (H : forall u, all_chars (fun c => mem_char c (u ++ s ++ t) || in_parens c) s = true).
  { induction s as [|c s IH]; intros u; [reflexivity|]. simpl.
    apply andb_true_intro. split.
    - apply orb_true_intro. left. clear IH.
      induction u as [|d u IHu].
      + change ("" ++ String c s ++ t)%string with (String c (s ++ t)).
        simpl. rewrite Ascii.eqb_refl. reflexivity.
      + change (String d u ++ String c s ++ t)%string
          with (String d (u ++ String c s ++ t)).
        simpl. rewrite IHu. apply orb_true_r.
    - specialize (IH (u ++ String c "")%string).
      assert (E : ((u ++ String c "") ++ s ++ t = u ++ String c s ++ t)%string).
      { clear. induction u as [|d u IHu]; [reflexivity|].
        change (String d u ++ String c "")%string with (String d (u ++ String c "")).
        change (String d (u ++ String c "") ++ s ++ t)%string
          with (String d ((u ++ String c "") ++ s ++ t)).
        rewrite IHu. reflexivity. }
      rewrite E in IH. exact IH. }
  exact (H ""%string).
Qed.

Lemma eqb_app_cons s c t : String.eqb s (s ++ String c t) = false.
Proof.
  induction s as [|d s IH]; [reflexivity|].
  change (String d s ++ String c t)%string with (String d (s ++ String c t)).
  simpl. rewrite Ascii.eqb_refl. exact IH.
Qed.

(** X8: on ASCII text, the check raises [IndexError] whenever the second
    string continues the first one with characters that occur in it or are
    parentheses. *)
Theorem reducible_to_raises_on_extension s c t :
  ascii_text s = true -> ascii_text (String c t) = true ->
  all_chars (fun d => mem_char d s || in_parens d) (String c t) = true ->
  reducible_to s (s ++ String c t) = inl Py.IndexError.
Proof.
  intros _ _ H. unfold reducible_to, symdiff_nonparen, diff_nonparen.
  rewrite eqb_app_cons, all_chars_self, all_chars_app.
  assert (Hs : all_chars (fun c0 => mem_char c0 s || in_parens c0) s = true).
  { pose proof (all_chars_self s "") as Hs.
    assert (E : (s ++ "")%string = s).
    { clear. induction s as [|d s IH]; [reflexivity|].
      change (String d s ++ "")%string with (String d (s ++ "")). rewrite IH.
      reflexivity. }
    rewrite E in Hs. exact Hs. }
  rewrite Hs, H. simpl. apply ParserFacts.walk_prefix_raises.
Qed.

Lemma reducible_to_raises_on_extension_witness :
  reducible_to "1+1" ("1+1" ++ "+1") = inl Py.IndexError.
Proof. apply reducible_to_raises_on_extension; reflexivity. Defined.

End ReduceMoreFacts.

(** ** Reflexivity of the equality *)

Module EqMoreFacts.

Import Binding EqSpec.

(** X9: a term compared with itself gives [True], under the empty renaming
    and under every renaming that sends names to themselves; the comparison
    raises nothing. *)
Theorem eq_reflexive t :
  alpha_eq t t = inr true
  /\ (forall x, eq t t {[ x := x ]} = inr true).
Proof.
  split; [apply EqFacts.alpha_eq_refl|].
  intros x. apply EqFacts.eq_identity. intros a b Hab.
  apply lookup_singleton_Some in Hab as [<- <-]. reflexivity.
Qed.

End EqMoreFacts.

(** ** The first free display name *)

Module PickMoreFacts.

Import Simplify ExtraSpec.

(** X10: the display name chosen for a bound name keeps its tag, is not in
    use, and every disambiguator before its own in the order none, 0, 1, ...
    gives a name in use. *)
Theorem pick_first_free x (in_use : gset Name) :
  name_x (pick x in_use) = name_x x
  /\ (pick x in_use ∉ in_use)
  /\ (forall n, rank n < rank (name_n (pick x in_use)) ->
                NameOps.with_n x n ∈ in_use).
Proof.
  split; [|split].
  - unfold pick. destruct (decide _); reflexivity.
  - apply PickFacts.pick_not_in_use.
  - intros n Hn. destruct (name_n (pick x in_use)) as [k|] eqn:E;
      [|simpl in Hn; lia].
    assert (Hp : pick x in_use = NameOps.with_n x (Some k)).
    { unfold pick in *. destruct (decide _); simpl in E; [|discriminate].
      injection E as <-. reflexivity. }
    apply PickFacts.pick_least in Hp as [H0 Hall].
    destruct n as [j|]; [|exact H0]. apply Hall. simpl in Hn. lia.
Qed.

End PickMoreFacts.

(** ** Class names and nonterminals *)

Module GrammarNamesFacts.

Import Grammar GrammarNames.

Lemma upper_lower c : is_upper c = true -> upper (lower c) = c.
Proof.
  destruct c as [[] [] [] [] [] [] [] []]; intros H; try discriminate H;
    reflexivity.
Qed.

Lemma lower_not_underscore c :
  is_upper c = true -> Ascii.eqb (lower c) underscore = false.
Proof.
  destruct c as [[] [] [] [] [] [] [] []]; intros H; try discriminate H;
    reflexivity.
Qed.

Lemma unmunge_munge s : forall p,
  plain s = true -> Ascii.eqb p underscore = false ->
  unmunge p (munge s) = s.
Proof.
  induction s as [|c s IH]; intros p Hs Hp; [reflexivity|].
  simpl in Hs. apply andb_prop in Hs as [Hc Hs].
  apply andb_prop in Hc as [_ Hc]. apply negb_true_iff in Hc.
  simpl. destruct (is_upper c) eqn:Eu.
  - simpl. rewrite (lower_not_underscore c Eu). simpl.
    rewrite (upper_lower c Eu). f_equal.
    apply IH; [exact Hs|apply lower_not_underscore; exact Eu].
  - simpl. rewrite Hc, Hp. f_equal. apply IH; assumption.
Qed.

(** X11: [nt_to_classname] undoes [classname_to_nt] on a class name that
    starts with an upper-case letter and has no underscore; on a name that
    starts otherwise the first character is lost. *)
Theorem nt_to_classname_round_trip c s :
  plain (String c s) = true ->
  nt_to_classname (classname_to_nt (String c s))
  = if is_upper c then String c s else s.
Proof.
  intros H. pose proof H as H'. simpl in H'.
  apply andb_prop in H' as [Hc Hs].
  apply andb_prop in Hc as [_ Hc]. apply negb_true_iff in Hc.
  unfold classname_to_nt. simpl. destruct (is_upper c) eqn:Eu.
  - simpl. rewrite (lower_not_underscore c Eu). simpl.
    rewrite (upper_lower c Eu). f_equal.
    apply unmunge_munge; [exact Hs|apply lower_not_underscore; exact Eu].
  - simpl. apply unmunge_munge; assumption.
Qed.

Lemma nt_to_classname_round_trip_witness :
  nt_to_classname (classname_to_nt "Forall") = "Forall".
Proof. apply (nt_to_classname_round_trip "F"%char "orall"). reflexivity. Defined.

End GrammarNamesFacts.

(** ** Registering productions *)

Module RegistryFacts.

Import Transformer.

Lemma assoc_dict_set_eq {A} k (v : A) d : assoc k (dict_set k v d) = Some v.
Proof.
  induction d as [|[k' v'] d IH]; simpl.
  - rewrite String.eqb_refl. reflexivity.
  - destruct (String.eqb k k') eqn:E; simpl; rewrite ?String.eqb_refl, ?E;
      [reflexivity|exact IH].
Qed.

Lemma assoc_dict_set_ne {A} k k' (v : A) d :
  k <> k' -> assoc k' (dict_set k v d) = assoc k' d.
Proof.
  intros Hne. induction d as [|[k0 v0] d IH]; simpl.
  - destruct (String.eqb k' k) eqn:E; [|reflexivity].
    apply String.eqb_eq in E. congruence.
  - destruct (String.eqb k k0) eqn:E; simpl.
    + apply String.eqb_eq in E. subst k0.
      destruct (String.eqb k' k) eqn:E'; [|reflexivity].
      apply String.eqb_eq in E'. congruence.
    + destruct (String.eqb k' k0); [reflexivity|exact IH].
Qed.

(** Registering a production appends it to the grammar and makes the
    transformer build the nonterminal of its class with that class, leaving
    the other nonterminals as they were. *)
Lemma add_production_registers p st :
  let nt := Grammar.classname_to_nt (ctor_name (fst p)) in
  let st' := Parser.add_production p st in
  Parser.productions st' = Parser.productions st ++ [p]
  /\ assoc nt (Parser.constructors st') = Some (fst p)
  /\ (forall k, k <> nt ->
        assoc k (Parser.constructors st') = assoc k (Parser.constructors st)).
Proof.
  cbv zeta. unfold Parser.add_production. simpl. split; [reflexivity|]. split.
  - apply assoc_dict_set_eq.
  - intros k Hk. apply assoc_dict_set_ne. congruence.
Qed.

Lemma dict_set_keys {A} k (v : A) d k' :
  In k' (map fst (dict_set k v d)) <-> k' = k \/ In k' (map fst d).
Proof.
  induction d as [|[k0 v0] d IH]; simpl.
  - split; (intros [H|H]; [left; congruence|right; exact H]).
  - destruct (String.eqb k k0) eqn:E; simpl.
    + apply String.eqb_eq in E. subst k0. split.
      * intros [H|H]; [left; congruence|right; right; exact H].
      * intros [H|[H|H]]; [left; congruence|left; exact H|right; exact H].
    + rewrite IH. tauto.
Qed.

Lemma dict_set_NoDup {A} k (v : A) d :
  NoDup (map fst d) -> NoDup (map fst (dict_set k v d)).
Proof.
  induction d as [|[k0 v0] d IH]; simpl; intros H.
  - apply NoDup_singleton.
  - inversion H as [|? ? Hn Hd]; subst.
    destruct (String.eqb k k0) eqn:E; simpl.
    + apply String.eqb_eq in E. subst k0. constructor; assumption.
    + constructor; [|apply IH; exact Hd].
      rewrite list_elem_of_In, dict_set_keys, <- list_elem_of_In.
      intros [->|Hin]; [|exact (Hn Hin)].
      rewrite String.eqb_refl in E. discriminate E.
Qed.

Lemma register_all_spec ps : forall st,
  let st' := Registry.register_all ps st in
  Parser.productions st' = Parser.productions st ++ ps
  /\ (forall k, assoc k (Parser.constructors st')
                = match Registry.latest k ps with
                  | Some c => Some c
                  | None => assoc k (Parser.constructors st)
                  end)
  /\ (NoDup (map fst (Parser.constructors st)) ->
      NoDup (map fst (Parser.constructors st'))).
Proof.
  induction ps as [|p r IH]; intros st; cbv zeta.
  - simpl. rewrite app_nil_r. auto.
  - change (Registry.register_all (p :: r) st)
      with (Registry.register_all r (Parser.add_production p st)).
    destruct (IH (Parser.add_production p st)) as (H1 & H2 & H3).
    destruct (add_production_registers p st) as (Hp & Heq & Hne).
    split; [|split].
    + rewrite H1, Hp, <- app_assoc. reflexivity.
    + intros k. rewrite H2.
      change (Registry.latest k (p :: r))
        with (match Registry.latest k r with
              | Some c => Some c
              | None => if String.eqb (Registry.nt_of p) k then Some (fst p)
                        else None
              end).
      destruct (Registry.latest k r); [reflexivity|].
      unfold Registry.nt_of.
      destruct (String.eqb (Grammar.classname_to_nt (ctor_name (fst p))) k) eqn:E.
      * apply String.eqb_eq in E. subst k. exact Heq.
      * apply Hne. intros ->. rewrite String.eqb_refl in E. discriminate E.
    + intros Hd. apply H3. apply dict_set_NoDup. exact Hd.
Qed.

(** X12: after any sequence of declarations the grammar holds every
    production declared, in order, also those of a class declared again
    under the same name, while the transformer builds each nonterminal with
    the class declared last under it and has one callback for each. *)
Theorem declarations_latest_wins ps :
  let st := Registry.register_all ps Parser.initial in
  Parser.productions st = ps
  /\ (forall k, assoc k (Parser.constructors st) = Registry.latest k ps)
  /\ NoDup (map fst (Parser.constructors st)).
Proof.
  cbv zeta. destruct (register_all_spec ps Parser.initial) as (H1 & H2 & H3).
  split; [exact H1|]. split.
  - intros k. rewrite H2. simpl. destruct (Registry.latest k ps); reflexivity.
  - apply H3. constructor.
Qed.

End RegistryFacts.

(** ** What [parses] returns *)

Module ParsesFacts.

Import Reduce FilterSpec.

Section Filter.

Variable order : Poset.t.
Variable st : Parser.state.
Variable s : string.

(** Every term kept was built from one of the trees. *)
Lemma filter_trees_origin trees : forall seen acc l,
  Parser.filter_trees order st s trees seen acc = inr l ->
  forall v, In v l ->
    In v acc
    \/ exists tree, In tree trees
                    /\ Transformer.transform (Parser.constructors st) tree
                       = inr (Transformer.Built v).
Proof.
  induction trees as [|tree rest IH]; intros seen acc l H v Hv; simpl in H.
  - injection H as <-. left. exact Hv.
  - assert (Hrest : forall seen' acc',
              Parser.filter_trees order st s rest seen' acc' = inr l ->
              In v acc' \/ exists tr, In tr (tree :: rest)
                 /\ Transformer.transform (Parser.constructors st) tr
                    = inr (Transformer.Built v)).
    { intros seen' acc' H'. destruct (IH _ _ _ H' v Hv) as [Hin|(tr & Htr & Ht)];
        [left; exact Hin|right; exists tr; split; [right; exact Htr|exact Ht]]. }
    destruct (existsb (tree_eqb tree) seen); [eauto|].
    destruct (Transformer.transform _ tree) as [e|[w| |]] eqn:Et;
      [eauto| |eauto|discriminate].
    destruct (reducible_to _ _) as [e|[|]]; simpl in H; try discriminate;
      [|eauto].
    destruct (Hrest _ _ H) as [Hin|Hex]; [|right; exact Hex].
    apply in_app_or in Hin as [Hin|[<-|[]]]; [left; exact Hin|].
    right. exists tree. split; [left; reflexivity|exact Et].
Qed.

Lemma tree_eqb_refl t : tree_eqb t t = true.
Proof.
  induction t as [ty v|d l IH] using tree_ind'; simpl.
  - rewrite !String.eqb_refl. reflexivity.
  - rewrite String.eqb_refl. simpl.
    induction IH as [|x r Hx _ IHr]; [reflexivity|]. rewrite Hx. exact IHr.
Qed.

(** A tree already seen is skipped wherever it comes again. *)
Lemma filter_trees_skip tree l2 : forall l3 seen acc,
  existsb (tree_eqb tree) seen = true ->
  Parser.filter_trees order st s (l2 ++ tree :: l3) seen acc
  = Parser.filter_trees order st s (l2 ++ l3) seen acc.
Proof.
  induction l2 as [|a l2 IH]; intros l3 seen acc Hs.
  - simpl. rewrite Hs. reflexivity.
  - assert (Hs' : existsb (tree_eqb tree) (a :: seen) = true)
      by (simpl; rewrite Hs; apply orb_true_r).
    simpl. destruct (existsb (tree_eqb a) seen); [apply IH; exact Hs|].
    destruct (Transformer.transform _ a) as [e|[w| |]];
      [apply IH; exact Hs'| |apply IH; exact Hs'|reflexivity].
    destruct (reducible_to _ _) as [e|[|]]; simpl; try reflexivity;
      apply IH; exact Hs'.
Qed.

Lemma filter_trees_duplicate tree l1 : forall l2 l3 seen acc,
  Parser.filter_trees order st s (l1 ++ tree :: l2 ++ tree :: l3) seen acc
  = Parser.filter_trees order st s (l1 ++ tree :: l2 ++ l3) seen acc.
Proof.
  induction l1 as [|a l1 IH]; intros l2 l3 seen acc.
  - assert (Hs' : existsb (tree_eqb tree) (tree :: seen) = true)
      by (simpl; rewrite tree_eqb_refl; reflexivity).
    simpl. destruct (existsb (tree_eqb tree) seen) eqn:Es;
      [apply filter_trees_skip; exact Es|].
    destruct (Transformer.transform _ tree) as [e|[w| |]];
      [apply filter_trees_skip; exact Hs'| |apply filter_trees_skip; exact Hs'
      |reflexivity].
    destruct (reducible_to _ _) as [e|[|]]; simpl; try reflexivity;
      apply filter_trees_skip; exact Hs'.
  - simpl. destruct (existsb (tree_eqb a) seen); [apply IH|].
    destruct (Transformer.transform _ a) as [e|[w| |]];
      [apply IH| |apply IH|reflexivity].
    destruct (reducible_to _ _) as [e|[|]]; simpl; try reflexivity; apply IH.
Qed.

(** The loop returns exactly when it gets past every tree it has not seen. *)
Lemma filter_trees_returns trees : forall seen acc,
  (exists l, Parser.filter_trees order st s trees seen acc = inr l)
  <-> (forall tree, In tree trees ->
         existsb (tree_eqb tree) seen = true \/ decided order st s tree).
Proof.
  induction trees as [|tree rest IH]; intros seen acc.
  - simpl. split; [intros _ tree []|intros _; eexists; reflexivity].
  - assert (Hnext : forall acc',
              decided order st s tree ->
              (exists l, Parser.filter_trees order st s rest (tree :: seen) acc'
                         = inr l)
              <-> (forall tr, In tr (tree :: rest) ->
                     existsb (tree_eqb tr) seen = true \/ decided order st s tr)).
    { intros acc' Hd. rewrite IH. split.
      - intros H tr [<-|Hin]; [right; exact Hd|].
        destruct (H tr Hin) as [Hs|Hd']; [|right; exact Hd'].
        simpl in Hs. apply orb_prop in Hs as [Hs|Hs]; [|left; exact Hs].
        apply RoundTrip.tree_eqb_eq in Hs. subst tr. right. exact Hd.
      - intros H tr Hin. destruct (H tr (or_intror Hin)) as [Hs|Hd'];
          [left; simpl; rewrite Hs; apply orb_true_r|right; exact Hd']. }
    simpl. destruct (existsb (tree_eqb tree) seen) eqn:Es.
    + rewrite IH. split.
      * intros H tr [<-|Hin]; [left; exact Es|apply H; exact Hin].
      * intros H tr Hin. apply H. right. exact Hin.
    + assert (Hbad : ~ decided order st s tree ->
                ~ (forall tr, In tr (tree :: rest) ->
                     existsb (tree_eqb tr) seen = true \/ decided order st s tr)).
      { intros Hn H. destruct (H tree (or_introl eq_refl)) as [Hs|Hd];
          [congruence|exact (Hn Hd)]. }
      unfold decided in Hnext, Hbad.
      destruct (Transformer.transform _ tree) as [e|[w| |]].
      * apply Hnext. exact I.
      * destruct (reducible_to _ _) as [e|[|]]; simpl.
        -- split; [intros [l Hl]; discriminate Hl|].
           intros H. exfalso. apply Hbad; [discriminate|exact H].
        -- apply Hnext. reflexivity.
        -- apply Hnext. reflexivity.
      * apply Hnext. exact I.
      * split; [intros [l Hl]; discriminate Hl|].
        intros H. exfalso. apply Hbad; [tauto|exact H].
Qed.

End Filter.

Section AnyEngine.

Variable engine : list production -> string -> Py.result (list tree).
Variable order : Poset.t.
Variable st : Parser.state.
Variable s : string.


End AnyEngine.

Import Examples Session.


(** X14: a tree that occurs twice in the forest is processed once: removing
    its second occurrence changes neither the list returned by the loop of
    [parses] nor an exception it raises. *)
Theorem parses_ignores_duplicates order st s tree l1 l2 l3 :
  Parser.filter_trees order st s (l1 ++ tree :: l2 ++ tree :: l3) [] []
  = Parser.filter_trees order st s (l1 ++ tree :: l2 ++ l3) [] [].
Proof. apply filter_trees_duplicate. Qed.

End ParsesFacts.

(** ** The terms built by the transformer *)

Module TransformFacts.

Import Transformer ExtraSpec.

Lemma wf_Mix c args :
  wf (Mix c args)
  <-> annotations c <> [] /\ length args = length (fields c) /\ Forall wf args.
Proof.
  simpl. split; intros (H1 & H2 & H3); (split; [exact H1|split; [exact H2|]]).
  - clear H2. induction args as [|a r IH]; [constructor|].
    destruct H3 as [Ha Hr]. constructor; auto.
  - clear H2. induction H3 as [|a r Ha _ IH]; [exact I|split; assumption].
Qed.

(** X15: every term the transformer builds has, at each mixfix node, as many
    arguments as the class has fields. *)
Theorem transform_wf constructors tree :
  declared_nonempty constructors ->
  forall t, transform constructors tree = inr (Built t) -> wf t.
Proof.
  intros Hd. induction tree as [ty v|d l IH] using tree_ind'; intros t Ht;
    [discriminate|].
  simpl in Ht. destruct (String.eqb d "identifier").
  - destruct l as [|[d' l'|ty v] l0]; try discriminate.
    injection Ht as <-. exact I.
  - match type of Ht with
    | (x <-! ?m; _) = _ => destruct m as [e|args] eqn:Ea; [discriminate|]
    end.
    assert (Hargs : Forall (fun a => forall u, a = Built u -> wf u) args).
    { clear Ht. revert args Ea.
      induction IH as [|x r Hx _ IHr]; intros args Ea.
      - injection Ea as <-. constructor.
      - destruct (transform constructors x) as [e|a] eqn:Ex; [discriminate|].
        simpl in Ea.
        match type of Ea with
        | (x <-! ?m; _) = _ => destruct m as [e|r'] eqn:Er; [discriminate|]
        end.
        simpl in Ea. injection Ea as <-. constructor.
        + intros u ->. apply Hx. reflexivity.
        + apply IHr. reflexivity. }
    simpl in Ht. destruct (assoc d constructors) as [c|] eqn:Ec; [|discriminate].
    destruct c as [|c]; simpl in Ht.
    + destruct args as [|[[x|x0 e0|c0 args0]| |] [|[e| |] [|]]]; try discriminate.
      injection Ht as <-. simpl.
      inversion Hargs as [|? ? _ Hr]; subst. inversion Hr as [|? ? He _]; subst.
      apply He. reflexivity.
    + unfold construct in Ht.
      destruct (Nat.eqb (length (fields c)) (length args)) eqn:El; [|discriminate].
      destruct (built_all args) as [ts|] eqn:Eb; [|discriminate].
      injection Ht as <-. apply Nat.eqb_eq in El.
      assert (Hts : length ts = length args /\ Forall wf ts).
      { clear El Ea IH. revert ts Eb.
        induction Hargs as [|a r Ha _ IHr]; intros ts Eb; simpl in Eb.
        - injection Eb as <-. split; [reflexivity|constructor].
        - destruct a as [u| |]; try discriminate.
          destruct (built_all r) as [ts'|]; [|discriminate].
          injection Eb as <-. destruct (IHr ts' eq_refl) as [Hl Hw].
          split; [simpl; congruence|constructor; [apply Ha; reflexivity|exact Hw]]. }
      destruct Hts as [Hl Hw].
      apply wf_Mix. split; [eapply Hd; exact Ec|].
      split; [congruence|exact Hw].
Qed.

Import Examples Session.

Lemma transform_wf_witness :
  wf (plus top top).
Proof.
  apply (transform_wf (Parser.constructors st1)
           (Tree "c_plus" [Tree "c_top" []; Tree "c_top" []])).
  - intros k c H. unfold st1, st0, declare, Parser.add_production in H.
    simpl in H.
    repeat match type of H with
           | (if ?b then _ else _) = _ => destruct b
           end;
      try discriminate H; injection H as <-; discriminate.
  - vm_compute. reflexivity.
Defined.

End TransformFacts.

(** ** The order decides parentheses only *)

Module PrinterMoreFacts.

Import Printer PrinterSpec PrinterMore.

Lemma strip_parens_app s t :
  strip_parens (s ++ t) = (strip_parens s ++ strip_parens t)%string.
Proof.
  induction s as [|c s IH]; [reflexivity|].
  change (String c s ++ t)%string with (String c (s ++ t)). simpl.
  destruct (in_parens c); [exact IH|].
  change (String c (strip_parens s) ++ strip_parens t)%string
    with (String c (strip_parens s ++ strip_parens t)).
  rewrite IH. reflexivity.
Qed.

Lemma append_empty_r s : (s ++ "")%string = s.
Proof.
  induction s as [|c s IH]; [reflexivity|].
  change (String c s ++ "")%string with (String c (s ++ "")). rewrite IH.
  reflexivity.
Qed.

Lemma strip_parens_parens s : strip_parens (parens s) = strip_parens s.
Proof.
  unfold parens. rewrite !strip_parens_app.
  change (strip_parens "(") with "". change (strip_parens ")") with "".
  rewrite append_empty_r. reflexivity.
Qed.

Lemma default_brackets_Mix c args :
  default_brackets (Mix c args)
  <-> bracket_attr c = None /\ Forall default_brackets args.
Proof.
  simpl. split; intros [H1 H2]; (split; [exact H1|]).
  - induction args as [|a r IH]; [constructor|].
    destruct H2 as [Ha Hr]. constructor; auto.
  - induction H2 as [|a r Ha _ IH]; [exact I|split; assumption].
Qed.

Lemma same_fields_items c b b' : same_fields (items c b) (items c b').
Proof.
  rewrite !PrinterFacts.items_amended. unfold items_with, same_fields.
  generalize (bounds_amended c b), (bounds_amended c b').
  induction (annotations c) as [|kv l IH]; intros f g; [constructor|].
  rewrite !imap_cons. constructor; [reflexivity|]. apply IH.
Qed.

Lemma next_field_same mode its its' :
  same_fields its its' ->
  fst (next_field mode its) = fst (next_field mode its')
  /\ match snd (next_field mode its), snd (next_field mode its') with
     | None, None => True
     | Some (_, _, rest), Some (_, _, rest') => same_fields rest rest'
     | _, _ => False
     end.
Proof.
  induction 1 as [|[[l [k v]] r] [[l' [k' v']] r'] its its' Hh Ht IH].
  - split; [reflexivity|exact I].
  - simpl in Hh. injection Hh as <- <-. destruct k as [k|]; simpl.
    + split; [reflexivity|exact Ht].
    + destruct IH as [IH1 IH2].
      destruct (next_field mode its) as [lits nxt].
      destruct (next_field mode its') as [lits' nxt'].
      simpl in *. subst lits'. split; [reflexivity|exact IH2].
Qed.

Lemma render_items_strip (f g : string -> string -> term -> string) mode args :
  Forall (fun a => forall l r l' r',
            strip_parens (f l r a) = strip_parens (g l' r' a)) args ->
  forall its its', same_fields its its' ->
    strip_parens (render_items f mode args its)
    = strip_parens (render_items g mode args its').
Proof.
  induction 1 as [|a args Ha _ IH]; intros its its' Hs;
    destruct (next_field_same mode its its' Hs) as [H1 H2]; simpl;
    destruct (next_field mode its) as [lits [[[l r] rest]|]];
    destruct (next_field mode its') as [lits' [[[l' r'] rest']|]];
    simpl in *; subst; try contradiction; try reflexivity.
  rewrite !strip_parens_app. rewrite (Ha l r l' r'), (IH _ _ H2). reflexivity.
Qed.

(** X16: the order on cursor positions and the incoming bounds decide
    parentheses and nothing else: two renderings of a term in the same mode
    are equal once parentheses are removed. *)
Theorem to_str_order_only_parens t :
  default_brackets t ->
  forall o o' mode l r l' r',
    strip_parens (to_str o mode l r t) = strip_parens (to_str o' mode l' r' t).
Proof.
  induction t as [x|x e IH|c args IH] using term_ind'; intros Hd o o' mode l r l' r'.
  - reflexivity.
  - simpl. rewrite !strip_parens_app. rewrite (IH Hd o o' mode "bot" r "bot" r').
    reflexivity.
  - apply default_brackets_Mix in Hd as [Hb Hargs]. simpl.
    assert (Hr : forall b b',
      strip_parens (render_items (to_str o mode) mode args (items c b))
      = strip_parens (render_items (to_str o' mode) mode args (items c b'))).
    { intros b b'. apply render_items_strip; [|apply same_fields_items].
      clear -IH Hargs. induction IH as [|a args Ha _ IHa]; [constructor|].
      inversion Hargs; subst. constructor; [|auto].
      intros. apply Ha. assumption. }
    unfold bracket. rewrite Hb.
    destruct (bracketing o c l r), (bracketing o' c l' r');
      rewrite ?strip_parens_parens; apply Hr.
Qed.

Import Examples.

Lemma to_str_order_only_parens_witness :
  strip_parens (to_str order1 pretty "bot" "bot" (times (times top top) top))
  = strip_parens (to_str Poset.empty pretty "top" "top" (times (times top top) top)).
Proof.
  apply to_str_order_only_parens. simpl. repeat split.
Defined.

End PrinterMoreFacts.

(** ** No shadowing after simplification *)

Module ShadowFacts.

Import Binding Simplify ExtraSpec.

Lemma no_shadow_Mix above c args :
  no_shadow above (Mix c args) <-> Forall (no_shadow above) args.
Proof.
  simpl. split.
  - induction args as [|a r IH]; [constructor|].
    intros [Ha Hr]. constructor; auto.
  - induction 1 as [|a r Ha _ IH]; [exact I|split; assumption].
Qed.

Lemma no_shadow_anti t : forall A B : gset Name,
  B ⊆ A -> no_shadow A t -> no_shadow B t.
Proof.
  induction t as [x|x e IH|c args IH] using term_ind'; intros A B HAB H.
  - exact I.
  - destruct H as [Hx He]. split; [set_solver|].
    eapply IH; [|exact He]. set_solver.
  - apply no_shadow_Mix in H. apply no_shadow_Mix.
    induction IH as [|a r Ha _ IHr]; [constructor|].
    inversion H; subst. constructor; [eapply Ha; eauto|auto].
Qed.

Lemma go_no_shadow t :
  forall renaming in_use, no_shadow in_use (fst (go t renaming in_use)).
Proof.
  induction t as [x|x e IH|c args IH] using term_ind'; intros renaming U.
  - simpl. destruct (renaming !! x); exact I.
  - rewrite SimplifyMoreFacts.go_F. cbv zeta. simpl fst.
    set (U1 := U ∪ fvs (F x e)). set (x' := pick x U1).
    assert (Hx' : x' ∉ U1) by apply PickFacts.pick_not_in_use.
    split; [unfold U1 in Hx'; set_solver|].
    eapply no_shadow_anti; [|apply IH]. unfold U1. set_solver.
  - rewrite SimplifyMoreFacts.go_Mix.
    assert (H : forall U, Forall (no_shadow U)
                            (fst (SimplifyMore.go_list renaming args U))).
    { induction IH as [|a r Ha _ IHr]; intros U'; simpl; [constructor|].
      specialize (Ha renaming U').
      pose proof (SimplifyMoreFacts.go_in_use_grows a renaming U') as Hg.
      destruct (go a renaming U') as [a' u1]. simpl in Ha, Hg.
      specialize (IHr u1).
      destruct (SimplifyMore.go_list renaming r u1) as [r' u2]. simpl in *.
      constructor; [exact Ha|].
      eapply Forall_impl; [exact IHr|].
      intros t Ht. eapply no_shadow_anti; [exact Hg|exact Ht]. }
    specialize (H U). destruct (SimplifyMore.go_list renaming args U) as [args' u].
    apply no_shadow_Mix. exact H.
Qed.

(** X17: in a term with simplified names no binder binds a name that a
    binder around it binds. *)
Theorem simple_names_no_shadow t : no_shadow ∅ (simple_names t).
Proof.
  unfold simple_names. eapply no_shadow_anti; [|apply go_no_shadow].
  set_solver.
Qed.

End ShadowFacts.

(** ** Substitution and freshening together *)

Module BindingMoreFacts.

Import Binding BindingMore SubstSpec.

(** X18: freshening with a renaming is the substitution of the variables
    the renaming names; with nothing to rename it is the empty
    substitution. *)
Theorem fresh_is_subst t renaming g :
  fresh t renaming g = subst t (V <$> renaming) g
  /\ fresh t ∅ g = subst t ∅ g.
Proof.
  split; [apply FreshFacts.fresh_as_subst|].
  rewrite FreshFacts.fresh_as_subst, fmap_empty. reflexivity.
Qed.

(** X19: a substitution advances the counter by the number of binders of the
    term it is applied to, whatever it maps. *)
Theorem subst_counter_binders t substitution g :
  snd (subst t substitution g) = g + binders t.
Proof. apply FreshFacts.subst_counter. Qed.

(** X20: an entry of the substitution for the bound name of a binder has no
    effect under that binder. *)
Theorem subst_ignores_bound_name x e substitution g :
  subst (F x e) substitution g = subst (F x e) (delete x substitution) g.
Proof.
  rewrite !SubstFacts.subst_F. cbv zeta. rewrite insert_delete_eq. reflexivity.
Qed.

(** X21: freshening keeps the free names, when their disambiguators were
    issued before. *)
Theorem fresh_keeps_free_names t g :
  (forall a, a ∈ fvs t -> below g a) ->
  fvs (fst (fresh t ∅ g)) = fvs t.
Proof.
  intros H. apply set_eq. intros a.
  rewrite FreshFacts.fresh_as_subst, fmap_empty.
  assert (Hiss : issued t ∅ g).
  { split.
    - intros b Hb _. apply H. exact Hb.
    - intros y u Hy. rewrite lookup_empty in Hy. discriminate. }
  pose proof (SubstFacts.subst_no_capture t ∅ g Hiss a) as Hnc.
  rewrite Hnc. unfold image. split.
  - intros (y & Hy & Ha). rewrite lookup_empty in Ha.
    apply elem_of_singleton in Ha. subst a. exact Hy.
  - intros Ha. exists a. rewrite lookup_empty.
    split; [exact Ha|apply elem_of_singleton; reflexivity].
Qed.

Lemma fresh_keeps_free_names_witness :
  fvs (fst (fresh (F (MkName "x" (Some 0)) (V (MkName "y" None))) ∅ 1))
  = fvs (F (MkName "x" (Some 0)) (V (MkName "y" None))).
Proof.
  apply fresh_keeps_free_names. intros a Ha. simpl in Ha.
  apply elem_of_difference in Ha as [Ha _]. apply elem_of_singleton in Ha.
  subst a. exact I.
Defined.

End BindingMoreFacts.

(** ** Renderings that are parsed back, and inputs that are not read *)

Module RoundTripMoreFacts.

Import Examples Session Samples.



End RoundTripMoreFacts.

(** ** The printer of [core.py] *)

Module CoreFacts.

Import Core.

Lemma annotated_Mix c args :
  annotated (CMix c args) <-> core_annotations c <> [] /\ Forall annotated args.
Proof.
  simpl. split; intros [H1 H2]; (split; [exact H1|]).
  - induction args as [|a r IH]; [constructor|].
    destruct H2 as [Ha Hr]. constructor; auto.
  - induction H2 as [|a r Ha _ IH]; [exact I|split; assumption].
Qed.

Lemma next_field_lit mode l r w rest :
  Printer.next_field mode ((l, (None, Some (AStr w)), r) :: rest)
  = (let (lits, nxt) := Printer.next_field mode rest in
     ((in_mode w mode ++ lits)%string, nxt)).
Proof. reflexivity. Qed.

Lemma next_field_field mode l r k v rest :
  Printer.next_field mode ((l, (Some k, v), r) :: rest) = ("", Some (l, r, rest)).
Proof. reflexivity. Qed.

Lemma core_items_cons name j k v anns :
  Core.items name j ((k, v) :: anns)
  = (Printer.make_prec name j, Printer.make_prec name k, (k, v))
      :: Core.items name k anns.
Proof. reflexivity. Qed.

Lemma core_next_field_lit l r k s rest :
  Core.next_field ((l, r, (k, Some s)) :: rest)
  = (let (lits, nxt) := Core.next_field rest in ((s ++ lits)%string, nxt)).
Proof. reflexivity. Qed.

Lemma core_next_field_field l r k rest :
  Core.next_field ((l, r, (k, None)) :: rest) = ("", Some (l, r, rest)).
Proof. reflexivity. Qed.

(** The items of the two printers, read up to the next field. *)
Lemma next_field_items name anns : forall (e0 : Printer.prec_entry) j,
  fst (fst e0) = Printer.make_prec name j ->
  match Core.next_field (Core.items name j anns) with
  | (lits, None) =>
      Printer.next_field None
        (Printer.pair_up (e0 :: map (PrinterSpec.entry_of name) (map conv anns)))
      = (lits, None)
  | (lits, Some (l, r, rest)) =>
      exists k anns' (e1 : Printer.prec_entry),
        rest = Core.items name k anns'
        /\ fst (fst e1) = Printer.make_prec name k
        /\ Printer.next_field None
             (Printer.pair_up (e0 :: map (PrinterSpec.entry_of name) (map conv anns)))
           = (lits, Some (l, r,
                Printer.pair_up (e1 :: map (PrinterSpec.entry_of name) (map conv anns'))))
  end.
Proof.
  induction anns as [|[k v] anns IH]; intros e0 j He0.
  - destruct e0 as [[? ?] ?]. reflexivity.
  - change (map conv ((k, v) :: anns)) with (conv (k, v) :: map conv anns).
    rewrite PrinterFacts.map_entry_cons, PrinterFacts.pair_up_cons.
    rewrite core_items_cons.
    specialize (IH (PrinterSpec.entry_of name (conv (k, v))) k eq_refl).
    destruct v as [s|].
    + change (snd (fst (PrinterSpec.entry_of name (conv (k, Some s)))))
        with (@None string).
      change (snd (PrinterSpec.entry_of name (conv (k, Some s))))
        with (Some (AStr (MkStr s []))).
      rewrite next_field_lit, core_next_field_lit.
      change (in_mode (MkStr s []) None) with s.
      destruct (Core.next_field (Core.items name k anns)) as [lits [[[l r] rest]|]].
      * destruct IH as (k' & anns' & e1 & -> & He1 & IH).
        exists k', anns', e1. split; [reflexivity|]. split; [exact He1|].
        rewrite IH. reflexivity.
      * rewrite IH. reflexivity.
    + change (snd (fst (PrinterSpec.entry_of name (conv (k, None)))))
        with (Some k).
      rewrite next_field_field, core_next_field_field.
      exists k, anns, (PrinterSpec.entry_of name (conv (k, None))).
      split; [reflexivity|]. split; [reflexivity|]. rewrite He0. reflexivity.
Qed.

Lemma render_items_unfold f mode args its :
  Printer.render_items f mode args its
  = match Printer.next_field mode its with
    | (lits, None) => lits
    | (lits, Some (l, r, rest)) =>
        match args with
        | [] => lits
        | a :: args' =>
            (lits ++ f l r a ++ Printer.render_items f mode args' rest)%string
        end
    end.
Proof. destruct args; reflexivity. Qed.

Lemma core_render_items_unfold g args its :
  Core.render_items g args its
  = match Core.next_field its with
    | (lits, None) => lits
    | (lits, Some (l, r, rest)) =>
        match args with
        | [] => lits
        | a :: args' => (lits ++ g l r a ++ Core.render_items g args' rest)%string
        end
    end.
Proof. destruct args; reflexivity. Qed.

Lemma render_items_core (f : string -> string -> term -> string)
    (g : string -> string -> cterm -> string) name args :
  Forall (fun a => forall l r, f l r (to_term a) = g l r a) args ->
  forall anns (e0 : Printer.prec_entry) j,
    fst (fst e0) = Printer.make_prec name j ->
    Printer.render_items f None (map to_term args)
      (Printer.pair_up (e0 :: map (PrinterSpec.entry_of name) (map conv anns)))
    = Core.render_items g args (Core.items name j anns).
Proof.
  induction 1 as [|a args Ha _ IH]; intros anns e0 j He0;
    pose proof (next_field_items name anns e0 j He0) as Hn;
    rewrite render_items_unfold, core_render_items_unfold;
    destruct (Core.next_field (Core.items name j anns)) as [lits [[[l r] rest]|]].
  - destruct Hn as (k & anns' & e1 & -> & He1 & ->). reflexivity.
  - rewrite Hn. reflexivity.
  - destruct Hn as (k & anns' & e1 & -> & He1 & ->).
    change (map to_term (a :: args)) with (to_term a :: map to_term args).
    cbv iota beta. rewrite Ha, (IH anns' e1 k He1). reflexivity.
  - rewrite Hn. reflexivity.
Qed.

Lemma make_prec_self name : Printer.make_prec name name = name.
Proof. unfold Printer.make_prec. rewrite String.eqb_refl. reflexivity. Qed.

Lemma map_fst_conv anns : map fst (map conv anns) = map fst anns.
Proof. induction anns as [|[k v] l IH]; simpl; [reflexivity|]. rewrite IH. reflexivity. Qed.


Import CoreExamples.


End CoreFacts.
